(** * The L'Oréal chat widget (script.js): a shallow embedding

    The script keeps one global conversation array, a detected user name,
    two localStorage entries and a chat window; a submit handler pushes the
    user's message and calls [sendMessageToOpenAI], which trims the
    conversation, posts it, and folds the reply back.

    The embedding follows the script function by function.  Global
    variables, localStorage, the DOM nodes the script writes and the
    requests it sends are fields of one [State]; a function of the script
    is a computation [JS A] that threads the state and either returns or
    throws.  What the browser provides (JSON, storage faults, coercions of
    non-primitive values, the variables of secrets.js) is a [Platform]; the
    network is a function from the request to what [fetch] settles with.
    [sendMessageToOpenAI] and the submit handler are first given as run
    from start to end, the network answering at once; the part on calls
    in flight cuts them at their [await]s, so that a submit can come while
    a call waits. *)

From Stdlib Require Import Floats Ascii.
From stdpp Require Import gmap list strings.

Set Warnings "-register-all".
Local Open Scope N_scope.

(** ** Strings

    A JavaScript string is a sequence of UTF-16 code units. *)

Abbreviation jsstring := (list N).

(** An ASCII literal as code units. *)
Definition lit (s : string) : jsstring :=
  (λ a, Ascii.N_of_ascii a) <$> String.list_ascii_of_string s.

Definition eacute : N := 233.
Definition emdash : N := 8212.
Definition dquote : N := 34.

Fixpoint jsstring_eqb (a b : jsstring) : bool :=
  match a, b with
  | [], [] => true
  | x :: a', y :: b' => (x =? y) && jsstring_eqb a' b'
  | _, _ => false
  end.

Definition is_empty {A} (s : list A) : bool :=
  match s with [] => true | _ => false end.

(** WhiteSpace and LineTerminator code units: what [String.prototype.trim]
    strips and what [\s] matches. *)
Definition is_space (c : N) : bool :=
  ((9 <=? c) && (c <=? 13)) || (c =? 32) || (c =? 160) || (c =? 5760)
  || ((8192 <=? c) && (c <=? 8202)) || (c =? 8232) || (c =? 8233)
  || (c =? 8239) || (c =? 8287) || (c =? 12288) || (c =? 65279).

Fixpoint drop_spaces (s : jsstring) : jsstring :=
  match s with
  | c :: t => if is_space c then drop_spaces t else s
  | [] => []
  end.

(** [s.trim()] *)
Definition trim (s : jsstring) : jsstring :=
  rev (drop_spaces (rev (drop_spaces s))).

(** [s.replaceAll(p, r)] for a pattern of one code unit. *)
Fixpoint replaceAll (p : N) (r : jsstring) (s : jsstring) : jsstring :=
  match s with
  | [] => []
  | c :: t => (if c =? p then r else [c]) ++ replaceAll p r t
  end.

(** Decimal digits of a non-negative integer, as [${n}] prints it. *)
Fixpoint decimal_go (fuel : nat) (n : N) (acc : jsstring) : jsstring :=
  match fuel with
  | O => acc
  | S fuel' =>
      let acc' := (48 + n mod 10) :: acc in
      if n / 10 =? 0 then acc' else decimal_go fuel' (n / 10) acc'
  end.

Definition decimal (n : N) : jsstring :=
  decimal_go (S (N.to_nat (N.log2 n))) n [].

(** Case folding of the regular expressions' [i] flag.  Every character of
    the two patterns is ASCII, and a code unit from 128 on never folds to
    an ASCII one, so folding ASCII letters is all that can make a match. *)
Definition upper (c : N) : N :=
  if (97 <=? c) && (c <=? 122) then c - 32 else c.

(** The literal [p] matched at the start of [s] ignoring case: the rest. *)
Fixpoint ci_prefix (p s : jsstring) : option jsstring :=
  match p, s with
  | [], _ => Some s
  | x :: p', c :: s' => if upper c =? upper x then ci_prefix p' s' else None
  | _ :: _, [] => None
  end.

(** [/p/i.test(s)] for a literal [p]. *)
Fixpoint ci_test (p s : jsstring) : bool :=
  match ci_prefix p s with
  | Some _ => true
  | None => match s with [] => false | _ :: t => ci_test p t end
  end.

(** ** Values

    What [JSON.parse] and [res.json()] produce, with [undefined] added. *)

Inductive value :=
| VUndefined
| VNull
| VBool (b : bool)
| VNum (x : float)
| VStr (s : jsstring)
| VArr (elems : list value)
| VObj (props : list (jsstring * value)).

(** What the script can observe of a thrown value: [err instanceof
    TypeError], and [err.message] of the others. *)
Inductive js_error :=
| TypeError
| OtherError (message : jsstring).

Inductive outcome (A : Type) :=
| Normal (a : A)
| Throw (e : js_error).
Arguments Normal {A} a.
Arguments Throw {A} e.

Definition obind {A B} (o : outcome A) (k : A → outcome B) : outcome B :=
  match o with
  | Normal a => k a
  | Throw e => Throw e
  end.

Notation "'let?' x ':=' o 'in' k" := (obind o (λ x, k))
  (at level 10, x name, o at level 100, k at level 200).

(** ToBoolean *)
Definition truthy (v : value) : bool :=
  match v with
  | VUndefined | VNull => false
  | VBool b => b
  | VNum x => negb (PrimFloat.is_zero x || PrimFloat.is_nan x)
  | VStr s => negb (is_empty s)
  | VArr _ | VObj _ => true
  end.

Definition nullish (v : value) : bool :=
  match v with
  | VUndefined | VNull => true
  | _ => false
  end.

(** [a ?? b] *)
Definition coalesce (a b : value) : value := if nullish a then b else a.

Fixpoint assoc (k : jsstring) (props : list (jsstring * value)) : value :=
  match props with
  | [] => VUndefined
  | (k', v) :: rest => if jsstring_eqb k k' then v else assoc k rest
  end.

(** A canonical array index: ["0"], or digits that start with 1 to 9. *)
Fixpoint digits_value (s : jsstring) (acc : N) : option N :=
  match s with
  | [] => Some acc
  | c :: t =>
      if (48 <=? c) && (c <=? 57) then digits_value t (10 * acc + (c - 48))
      else None
  end.

Definition array_index (k : jsstring) : option nat :=
  match k with
  | [] => None
  | [c] => if (48 <=? c) && (c <=? 57) then Some (N.to_nat (c - 48)) else None
  | c :: t =>
      if (49 <=? c) && (c <=? 57)
      then N.to_nat <$> digits_value (c :: t) 0
      else None
  end.

Definition number_of_nat (n : nat) : float :=
  PrimFloat.of_uint63 (Uint63.of_Z (Z.of_nat n)).

(** The property [k] of a value that is neither [undefined] nor [null].
    Objects hold their own properties; arrays and strings hold [length]
    and their indices.  The names the script reads (role, content,
    choices, message, delta, text, body, error) are not names of the
    built-in prototypes, so nothing is inherited for them. *)
Definition get_prop (v : value) (k : jsstring) : value :=
  match v with
  | VObj props => assoc k props
  | VArr elems =>
      match array_index k with
      | Some i => default VUndefined (elems !! i)
      | None =>
          if jsstring_eqb k (lit "length")
          then VNum (number_of_nat (length elems))
          else VUndefined
      end
  | VStr s =>
      match array_index k with
      | Some i => from_option (λ c, VStr [c]) VUndefined (s !! i)
      | None =>
          if jsstring_eqb k (lit "length")
          then VNum (number_of_nat (length s))
          else VUndefined
      end
  | _ => VUndefined
  end.

(** [v.k]: reading a property of [undefined] or [null] throws a TypeError. *)
Definition get (v : value) (k : jsstring) : outcome value :=
  if nullish v then Throw TypeError else Normal (get_prop v k).

(** [v?.k] *)
Definition opt_get (v : value) (k : jsstring) : value :=
  if nullish v then VUndefined else get_prop v k.

(** [v === s] for a string [s] *)
Definition is_string (s : jsstring) (v : value) : bool :=
  match v with
  | VStr s' => jsstring_eqb s' s
  | _ => false
  end.

(** ** The platform *)

Record Platform := {
  (** [JSON.parse]; a SyntaxError is an [OtherError] with the engine's text *)
  JSON_parse : jsstring → outcome value;
  JSON_stringify : value → jsstring;
  (** the error, if any, that reading localStorage throws *)
  getItem_fault : option js_error;
  (** the error, if any (quota, denied access), that this write throws *)
  setItem_fault : gmap jsstring jsstring → jsstring → jsstring → option js_error;
  (** StringToNumber, Number::toString, and ToPrimitive of an array or an
      object with the hint number ([true]) or string ([false]) *)
  StringToNumber : jsstring → float;
  NumberToString : float → jsstring;
  ToPrimitive : bool → value → outcome value;
  (** secrets.js: [cfWorkerUrl] and [apiKey], [None] when not declared, and
      the message of the ReferenceError raised by reading [apiKey] then *)
  cfWorkerUrl : option jsstring;
  apiKey : option jsstring;
  apiKey_undeclared : jsstring;
}.

(** ** The network *)

Record Request := {
  url : jsstring;
  method : jsstring;
  headers : list (jsstring * jsstring);
  body : jsstring;
}.

(** A settled response: [res.ok], [res.status], and what [res.text()] and
    [res.json()] settle with. *)
Record Response := {
  ok : bool;
  status : N;
  text : outcome jsstring;
  json : outcome value;
}.

(** What [fetch] settles with for a request; [Throw] is a rejection. *)
Abbreviation Network := (Request → outcome Response).

(** ** The page and the script's state *)

Inductive node :=
| TextNode (data : jsstring)
| Div (className innerHTML : jsstring).

Record Button := {
  disabled : bool;
  opacity : jsstring;
}.

Record State := {
  (** [let conversation] *)
  conversation : list value;
  (** [let userName] *)
  userName : jsstring;
  localStorage : gmap jsstring jsstring;
  (** children of [#chatWindow] *)
  chatWindow : list node;
  (** text of [#latestQuestion], [None] when the page has no such element *)
  latestQuestion : option jsstring;
  (** [userInput.value] *)
  userInput : jsstring;
  (** [#sendBtn], [None] when the page has no such element *)
  sendBtn : option Button;
  (** the requests handed to [fetch] so far *)
  sent : list Request;
}.

Definition set_conversation (c : list value) (st : State) : State :=
  {| conversation := c; userName := userName st;
     localStorage := localStorage st; chatWindow := chatWindow st;
     latestQuestion := latestQuestion st; userInput := userInput st;
     sendBtn := sendBtn st; sent := sent st |}.

Definition set_userName (n : jsstring) (st : State) : State :=
  {| conversation := conversation st; userName := n;
     localStorage := localStorage st; chatWindow := chatWindow st;
     latestQuestion := latestQuestion st; userInput := userInput st;
     sendBtn := sendBtn st; sent := sent st |}.

Definition set_localStorage (m : gmap jsstring jsstring) (st : State) : State :=
  {| conversation := conversation st; userName := userName st;
     localStorage := m; chatWindow := chatWindow st;
     latestQuestion := latestQuestion st; userInput := userInput st;
     sendBtn := sendBtn st; sent := sent st |}.

Definition set_chatWindow (w : list node) (st : State) : State :=
  {| conversation := conversation st; userName := userName st;
     localStorage := localStorage st; chatWindow := w;
     latestQuestion := latestQuestion st; userInput := userInput st;
     sendBtn := sendBtn st; sent := sent st |}.

Definition set_latestQuestion (q : option jsstring) (st : State) : State :=
  {| conversation := conversation st; userName := userName st;
     localStorage := localStorage st; chatWindow := chatWindow st;
     latestQuestion := q; userInput := userInput st;
     sendBtn := sendBtn st; sent := sent st |}.

Definition set_userInput (s : jsstring) (st : State) : State :=
  {| conversation := conversation st; userName := userName st;
     localStorage := localStorage st; chatWindow := chatWindow st;
     latestQuestion := latestQuestion st; userInput := s;
     sendBtn := sendBtn st; sent := sent st |}.

Definition set_sendBtn (b : option Button) (st : State) : State :=
  {| conversation := conversation st; userName := userName st;
     localStorage := localStorage st; chatWindow := chatWindow st;
     latestQuestion := latestQuestion st; userInput := userInput st;
     sendBtn := b; sent := sent st |}.

Definition set_sent (r : list Request) (st : State) : State :=
  {| conversation := conversation st; userName := userName st;
     localStorage := localStorage st; chatWindow := chatWindow st;
     latestQuestion := latestQuestion st; userInput := userInput st;
     sendBtn := sendBtn st; sent := r |}.

(** ** Computations: state that survives a throw *)

Definition JS (A : Type) : Type := State → outcome A * State.

Definition ret {A} (a : A) : JS A := λ st, (Normal a, st).

Definition throw {A} (e : js_error) : JS A := λ st, (Throw e, st).

Definition bind {A B} (m : JS A) (k : A → JS B) : JS B :=
  λ st,
    match m st with
    | (Normal a, st') => k a st'
    | (Throw e, st') => (Throw e, st')
    end.

Definition lift {A} (o : outcome A) : JS A := λ st, (o, st).

Definition gets {A} (f : State → A) : JS A := λ st, (Normal (f st), st).

Definition modify (f : State → State) : JS unit := λ st, (Normal tt, f st).

(** [try { body } catch (e) { handler e }] *)
Definition try_catch {A} (body : JS A) (handler : js_error → JS A) : JS A :=
  λ st,
    match body st with
    | (Normal a, st') => (Normal a, st')
    | (Throw e, st') => handler e st'
    end.

(** [try { body } finally { fin }] *)
Definition try_finally {A} (body : JS A) (fin : JS unit) : JS A :=
  λ st,
    match body st with
    | (r, st') =>
        match fin st' with
        | (Normal _, st'') => (r, st'')
        | (Throw e, st'') => (Throw e, st'')
        end
    end.

Declare Scope js_scope.
Delimit Scope js_scope with js.
Notation "'let*' x ':=' m 'in' k" := (bind m (λ x, k))
  (at level 10, x name, m at level 100, k at level 200) : js_scope.
Notation "m '>>' k" := (bind m (λ _, k))
  (at level 100, k at level 200, right associativity) : js_scope.
Local Open Scope js_scope.

(** ** Constants of the script *)

Definition systemPrompt : jsstring :=
  lit "You are the L'Or"
  ++ [eacute]
  ++ lit "al Smart Product Advisor. Only answer questions about L'Or"
  ++ [eacute]
  ++ lit "al brands, products, skincare and haircare routines, and "
  ++ lit "product recommendations from L'Or"
  ++ [eacute]
  ++ lit "al. If a user asks about topics outside this scope "
  ++ lit "(including other brands, general medical/legal advice, "
  ++ lit "politics, or unrelated topics), politely refuse with a "
  ++ lit "short, friendly message such as: "
  ++ [dquote]
  ++ lit "I'm sorry "
  ++ [emdash]
  ++ lit " I can only help with L'Or"
  ++ [eacute]
  ++ lit "al products and beauty routines. If you'd like, I can "
  ++ lit "suggest L'Or"
  ++ [eacute]
  ++ lit "al alternatives or product recommendations."
  ++ [dquote]
  ++ lit " After refusing, always offer a helpful L'Or"
  ++ [eacute]
  ++ lit "al-focused alternative or redirect. Provide concise, "
  ++ lit "factual product suggestions, recommended usage, ingredient "
  ++ lit "considerations relevant to skin/hair type, and note "
  ++ lit "regional availability when relevant. Do not invent "
  ++ lit "endorsements, medical diagnoses, or claim regulatory "
  ++ lit "approvals. Keep tone professional, helpful, and "
  ++ lit "brand-consistent.".

(** [{ role: r, content: c }] *)
Definition Message (r : jsstring) (c : value) : value :=
  VObj [(lit "role", VStr r); (lit "content", c)].

Definition system_message : value := Message (lit "system") (VStr systemPrompt).

Definition STORAGE_conversation : jsstring := lit "loreal_chat_conversation".
Definition STORAGE_userName : jsstring := lit "loreal_chat_userName".

Definition MAX_CONVERSATION_MESSAGES : nat := 40.

Local Close Scope N_scope.

(** ** Array methods, with callbacks that may throw *)

(** [a.find(f)] *)
Fixpoint Array_find (f : value → outcome bool) (a : list value) : outcome value :=
  match a with
  | [] => Normal VUndefined
  | m :: rest => let? b := f m in if b then Normal m else Array_find f rest
  end.

(** [a.filter(f)] *)
Fixpoint Array_filter (f : value → outcome bool) (a : list value)
  : outcome (list value) :=
  match a with
  | [] => Normal []
  | m :: rest =>
      let? b := f m in
      let? kept := Array_filter f rest in
      Normal (if b then m :: kept else kept)
  end.

(** [a.some(f)] *)
Fixpoint Array_some (f : value → outcome bool) (a : list value) : outcome bool :=
  match a with
  | [] => Normal false
  | m :: rest => let? b := f m in if b then Normal true else Array_some f rest
  end.

(** [a.slice(-n)] *)
Definition slice_last (n : nat) (a : list value) : list value :=
  drop (length a - n) a.

(** [(m) => m.role === "system"] *)
Definition role_is_system (m : value) : outcome bool :=
  let? r := get m (lit "role") in Normal (is_string (lit "system") r).

(** [(m) => m.role !== "system"] *)
Definition role_not_system (m : value) : outcome bool :=
  let? r := get m (lit "role") in Normal (negb (is_string (lit "system") r)).

(** ** The name pattern

    [/(?:my name is|i am|i'm)\s+([A-Z][a-zA-Z\-']{1,30})/i] *)

(** [[A-Z]] under the [i] flag *)
Definition is_letter (c : N) : bool :=
  (65 <=? upper c)%N && (upper c <=? 90)%N.

(** [[a-zA-Z\-']] *)
Definition is_name_char (c : N) : bool :=
  is_letter c || (c =? 45)%N || (c =? 39)%N.

Fixpoint take_name_chars (n : nat) (s : jsstring) : jsstring :=
  match n, s with
  | S n', c :: t => if is_name_char c then c :: take_name_chars n' t else []
  | _, _ => []
  end.

(** [\s+([A-Z][a-zA-Z\-']{1,30})] at the start of [s]: the group.  Both
    quantifiers are greedy.  Giving back a white space to [\s+] leaves a
    white space where a letter is required, and nothing follows the
    group, so the longest run is the only one that can match. *)
Definition name_after_spaces (s : jsstring) : option jsstring :=
  match s with
  | c :: _ =>
      if is_space c then
        match drop_spaces s with
        | l :: t =>
            if is_letter l then
              match take_name_chars 30 t with
              | [] => None
              | more => Some (l :: more)
              end
            else None
        | [] => None
        end
      else None
  | [] => None
  end.

(** One alternative of the pattern at the start of [s]. *)
Definition name_after (intro : jsstring) (s : jsstring) : option jsstring :=
  match ci_prefix intro s with
  | Some rest => name_after_spaces rest
  | None => None
  end.

(** The pattern at the start of [s], alternatives in their order. *)
Definition name_here (s : jsstring) : option jsstring :=
  match name_after (lit "my name is") s with
  | Some n => Some n
  | None =>
      match name_after (lit "i am") s with
      | Some n => Some n
      | None => name_after (lit "i'm") s
      end
  end.

(** [text.match(...)]: the group of the leftmost match. *)
Fixpoint match_name (text : jsstring) : option jsstring :=
  match name_here text with
  | Some n => Some n
  | None =>
      match text with
      | [] => None
      | _ :: t => match_name t
      end
  end.

(** ** Rendering *)

Definition escapeHtml (str : jsstring) : jsstring :=
  replaceAll 39 (lit "&#39;")
    (replaceAll 34 (lit "&quot;")
       (replaceAll 62 (lit "&gt;")
          (replaceAll 60 (lit "&lt;")
             (replaceAll 38 (lit "&amp;") str)))).

(** The [div] that [appendMessage(role, text)] adds to the chat window. *)
Definition message_div (role text : jsstring) : node :=
  Div (lit "msg " ++ role) (replaceAll 10 (lit "<br>") (escapeHtml text)).

Definition append_div (role text : jsstring) (st : State) : State :=
  set_chatWindow (chatWindow st ++ [message_div role text]) st.

(** What [setLoading(isLoading)] does to the send button, if there is one. *)
Definition loading (isLoading : bool) (st : State) : State :=
  match sendBtn st with
  | None => st
  | Some _ =>
      set_sendBtn
        (Some {| disabled := isLoading;
                 opacity := if isLoading then lit "0.6" else lit "" |})
        st
  end.

(** What the submit handler does to [#latestQuestion], if there is one. *)
Definition show_latest (text : jsstring) (st : State) : State :=
  match latestQuestion st with
  | Some _ => set_latestQuestion (Some text) st
  | None => st
  end.

Section Script.
Context (P : Platform).

(** *** Coercions *)

Definition ToNumber_primitive (v : value) : float :=
  match v with
  | VNull => 0
  | VBool b => if b then 1 else 0
  | VNum x => x
  | VStr s => StringToNumber P s
  | _ => nan
  end.

Definition ToNumber (v : value) : outcome float :=
  match v with
  | VArr _ | VObj _ =>
      let? p := ToPrimitive P true v in Normal (ToNumber_primitive p)
  | _ => Normal (ToNumber_primitive v)
  end.

Definition ToString_primitive (v : value) : jsstring :=
  match v with
  | VNull => lit "null"
  | VBool b => if b then lit "true" else lit "false"
  | VNum x => NumberToString P x
  | VStr s => s
  | _ => lit "undefined"
  end.

Definition ToString (v : value) : outcome jsstring :=
  match v with
  | VArr _ | VObj _ =>
      let? p := ToPrimitive P false v in Normal (ToString_primitive p)
  | _ => Normal (ToString_primitive v)
  end.

(** [v > 0] *)
Definition greater_than_zero (v : value) : outcome bool :=
  let? n := ToNumber v in Normal (PrimFloat.ltb 0 n).

(** [c.length > 0] for a [c] that is not [undefined] or [null].  The
    length of an array or of a string is its number of elements, so the
    comparison is decided on the list; any other value is asked for a
    property named length, which is then compared as [v > 0]. *)
Definition length_positive (c : value) : outcome bool :=
  match c with
  | VArr elems => Normal (negb (is_empty elems))
  | VStr s => Normal (negb (is_empty s))
  | _ => greater_than_zero (get_prop c (lit "length"))
  end.

(** *** Reading the reply (the body of the [try], from [res.json()] on) *)

(** [choice?.message?.content ?? choice?.delta?.content ?? choice?.text
    ?? null] *)
Definition choice_text (choice : value) : value :=
  coalesce (opt_get (opt_get choice (lit "message")) (lit "content"))
    (coalesce (opt_get (opt_get choice (lit "delta")) (lit "content"))
       (coalesce (opt_get choice (lit "text")) VNull)).

(** [assistantMessage] after the first [if] *)
Definition text_from_choices (data : value) : outcome value :=
  let choices := opt_get data (lit "choices") in
  if truthy choices then
    let? positive := length_positive choices in
    if positive then Normal (choice_text (get_prop choices (lit "0")))
    else Normal VNull
  else Normal VNull.

(** [assistantMessage] after the second [if]: a reply wrapped in a
    [body] field; a body that does not parse is ignored. *)
Definition text_from_body (data assistantMessage : value) : value :=
  if negb (truthy assistantMessage) && truthy data
     && truthy (get_prop data (lit "body"))
  then
    let body := get_prop data (lit "body") in
    match (match body with VStr s => JSON_parse P s | _ => Normal body end) with
    | Normal parsed =>
        choice_text (opt_get (opt_get parsed (lit "choices")) (lit "0"))
    | Throw _ => assistantMessage
    end
  else assistantMessage.

Definition no_assistant_message : jsstring :=
  lit "No assistant message in response " ++ [emdash]
  ++ lit " see console for full API response".

(** the third [if]: without a text, throw what the provider reported, or
    that there is no message *)
Definition require_text (data assistantMessage : value) : outcome value :=
  if truthy assistantMessage then Normal assistantMessage
  else
    let error := opt_get data (lit "error") in
    if truthy error then
      let m := get_prop error (lit "message") in
      let msg := if truthy m then m else VStr (JSON_stringify P error) in
      let? shown := ToString msg in
      Throw (OtherError (lit "OpenAI error: " ++ shown))
    else Throw (OtherError no_assistant_message).

Definition assistant_text (data : value) : outcome value :=
  let? first := text_from_choices data in
  require_text data (text_from_body data first).

(** [if (!res.ok) ...; const data = await res.json();] and the reading
    of [data] *)
Definition reply_of (res : Response) : outcome value :=
  if ok res then
    let? data := json res in assistant_text data
  else
    let? txt := text res in
    Throw (OtherError (lit "API error: " ++ decimal (status res) ++ lit " " ++ txt)).

(** *** The request *)

(** [typeof cfWorkerUrl !== "undefined" && cfWorkerUrl ? cfWorkerUrl :
    null] *)
Definition workerUrl : option jsstring :=
  match cfWorkerUrl P with
  | Some u => if is_empty u then None else Some u
  | None => None
  end.

Definition content_type : jsstring * jsstring :=
  (lit "Content-Type", lit "application/json").

(** The request for the conversation [conv]: to the worker, or to the
    provider with the key of secrets.js. *)
Definition request_for (conv : list value) : outcome Request :=
  match workerUrl with
  | Some u =>
      Normal {| url := u; method := lit "POST"; headers := [content_type];
                body := JSON_stringify P (VObj [(lit "messages", VArr conv)]) |}
  | None =>
      let payload :=
        VObj [(lit "model", VStr (lit "gpt-4o"));
              (lit "messages", VArr conv);
              (lit "temperature", VNum 0x1.999999999999ap-3)] in
      match apiKey P with
      | Some key =>
          Normal {| url := lit "https://api.openai.com/v1/chat/completions";
                    method := lit "POST";
                    headers := [content_type;
                                (lit "Authorization", lit "Bearer " ++ key)];
                    body := JSON_stringify P payload |}
      | None => Throw (OtherError (apiKey_undeclared P))
      end
  end.

(** [await fetch(...)] *)
Definition do_fetch (net : Network) (req : Request) : JS Response :=
  λ st, (net req, set_sent (sent st ++ [req]) st).

(** *** The message shown after a failure (the [catch] block) *)

Definition isNetworkErr (err : js_error) : bool :=
  match err with
  | TypeError => true
  | OtherError message => ci_test (lit "failed to fetch") message
  end.

Definition friendlyMessage (err : js_error) : jsstring :=
  if isNetworkErr err then
    match workerUrl with
    | Some u =>
        lit "Network error: could not reach the Cloudflare Worker at " ++ u
        ++ lit ". Make sure the worker is deployed and that "
        ++ lit "CORS/OPENAI_API_KEY are configured. See console for details."
    | None =>
        lit "Network error: could not reach the OpenAI API. Check your "
        ++ lit "internet connection and API key configuration. "
        ++ lit "See console for details."
    end
  else
    match err with
    | OtherError (c :: m) => lit "Error: " ++ c :: m
    | _ => lit "Sorry " ++ [emdash] ++ lit " there was an error getting a response."
    end.

(** *** localStorage *)

Definition getItem (k : jsstring) : JS (option jsstring) :=
  match getItem_fault P with
  | Some e => throw e
  | None => gets (λ st, localStorage st !! k)
  end.

Definition setItem (k v : jsstring) : JS unit :=
  λ st,
    match setItem_fault P (localStorage st) k v with
    | Some e => (Throw e, st)
    | None => (Normal tt, set_localStorage (<[k:=v]> (localStorage st)) st)
    end.

(** *** The functions of the script *)

(** [escapeHtml] is a chain of [replaceAll] calls on its argument:
    a text that is not a string has no such method, a TypeError. *)
Definition appendMessage (role : jsstring) (text : value) : JS unit :=
  match text with
  | VStr s => modify (append_div role s)
  | _ => throw TypeError
  end.

Definition saveState : JS unit :=
  try_catch
    (let* conv := gets conversation in
     setItem STORAGE_conversation (JSON_stringify P (VArr conv)) >>
     let* name := gets userName in
     setItem STORAGE_userName (if is_empty name then lit "" else name))
    (λ _, ret tt).

Definition loadState : JS unit :=
  try_catch
    (let* raw := getItem STORAGE_conversation in
     let* name := getItem STORAGE_userName in
     match name with
     | Some (c :: n) => modify (set_userName (c :: n))
     | _ => ret tt
     end >>
     match raw with
     | Some (c :: r) =>
         let* parsed := lift (JSON_parse P (c :: r)) in
         match parsed with
         | VArr (m :: rest) =>
             let* has := lift (Array_some role_is_system (m :: rest)) in
             modify (set_conversation
                       (if has then m :: rest
                        else system_message :: m :: rest))
         | _ => ret tt
         end
     | _ => ret tt
     end)
    (λ _, ret tt).

Definition trimConversation : JS unit :=
  let* conv := gets conversation in
  let* sys := lift (Array_find role_is_system conv) in
  let* others := lift (Array_filter role_not_system conv) in
  let trimmed := slice_last MAX_CONVERSATION_MESSAGES others in
  modify (set_conversation (sys :: trimmed)).

Definition detectAndSaveUserName (text : jsstring) : JS unit :=
  match match_name text with
  | Some name => modify (set_userName name) >> saveState
  | None => ret tt
  end.

Definition setLoading (isLoading : bool) : JS unit :=
  modify (loading isLoading).

(** [conversation.push(m)] *)
Definition push (m : value) : JS unit :=
  modify (λ st, set_conversation (conversation st ++ [m]) st).

Definition sendMessageToOpenAI (net : Network) (messageText : jsstring)
  : JS unit :=
  trimConversation >>
  try_finally
    (try_catch
       (setLoading true >>
        let* conv := gets conversation in
        let* req := lift (request_for conv) in
        let* res := do_fetch net req in
        let* assistantMessage := lift (reply_of res) in
        push (Message (lit "assistant") assistantMessage) >>
        saveState >>
        appendMessage (lit "ai") assistantMessage)
       (λ err, appendMessage (lit "ai") (VStr (friendlyMessage err))))
    (setLoading false).

(** The submit handler of [#chatForm]. *)
Definition submit (net : Network) : JS unit :=
  let* typed := gets userInput in
  let text := trim typed in
  if is_empty text then ret tt
  else
    push (Message (lit "user") (VStr text)) >>
    detectAndSaveUserName text >>
    saveState >>
    appendMessage (lit "user") (VStr text) >>
    modify (show_latest text) >>
    modify (set_userInput []) >>
    sendMessageToOpenAI net text.

End Script.

(** ** Drawing the conversation and loading the page *)

(** [a.forEach(f)] *)
Fixpoint Array_forEach (f : value → JS unit) (a : list value) : JS unit :=
  match a with
  | [] => ret tt
  | m :: rest => f m >> Array_forEach f rest
  end.

(** [(m) => m.role === "user"] *)
Definition role_is_user (m : value) : outcome bool :=
  let? r := get m (lit "role") in Normal (is_string (lit "user") r).

(** The greeting shown when there is no earlier conversation. *)
Definition welcome : jsstring :=
  [55357; 56395]%N ++ lit " Welcome to the L'Or" ++ [eacute]
  ++ lit "al Smart Product Advisor. Ask me about L'Or" ++ [eacute]
  ++ lit "al products, routines or recommendations.".

Section Page.
Context (P : Platform).

(** The callback of [forEach] in [renderConversation]: a system message
    is skipped; the class of the [div] is made by the template
    [`msg ${role}`] from ["ai"] or from the role as it is. *)
Definition render_entry (m : value) : JS unit :=
  let* role := lift (get m (lit "role")) in
  if is_string (lit "system") role then ret tt
  else
    let shown :=
      if is_string (lit "assistant") role then VStr (lit "ai") else role in
    let* content := lift (get m (lit "content")) in
    let* class := lift (ToString P shown) in
    appendMessage class content.

Definition renderConversation : JS unit :=
  modify (set_chatWindow []) >>
  let* conv := gets conversation in
  Array_forEach render_entry conv.

(** The text a node takes when [v] is assigned to its [textContent]:
    [null] and [undefined] give the empty text. *)
Definition textContent_of (v : value) : outcome jsstring :=
  if nullish v then Normal [] else ToString P v.

(** The end of the script, run once when the page loads: restore, draw,
    then greet or show the last question. *)
Definition initialize : JS unit :=
  loadState P >>
  renderConversation >>
  let* conv := gets conversation in
  if length conv <=? 1 then
    modify (set_chatWindow []) >>
    appendMessage (lit "ai") (VStr welcome)
  else
    let* lastUser := lift (Array_find role_is_user (rev conv)) in
    let* el := gets latestQuestion in
    match el with
    | Some _ =>
        if truthy lastUser then
          let* content := lift (get lastUser (lit "content")) in
          let* shown := lift (textContent_of content) in
          modify (set_latestQuestion (Some shown))
        else ret tt
    | None => ret tt
    end.

End Page.

(** ** Calls in flight

    [sendMessageToOpenAI] is an async function.  It runs to [await
    fetch(...)] and yields; resumed when [fetch] settles, it yields again
    at [await res.text()] or [await res.json()]; resumed once more, it
    runs to its end.  While a call waits the page handles other events, a
    further submit among them: nothing in the script holds it back.  The
    pieces below are the runs between two yields; [sendMessageToOpenAI]
    and [submit] above are these pieces run one after the other. *)

Section Flight.
Context (P : Platform).

(** The [catch] block and the [finally] block, entered with what the
    [try] block threw. *)
Definition send_failed (err : js_error) : JS unit :=
  try_finally
    (appendMessage (lit "ai") (VStr (friendlyMessage P err)))
    (setLoading false).

(** [sendMessageToOpenAI] from its start to [await fetch(...)]: the
    request handed to [fetch].  When building the request throws, the
    [catch] and [finally] blocks run at once and the call is over. *)
Definition send_start : JS (option Request) :=
  trimConversation >>
  setLoading true >>
  let* conv := gets conversation in
  match request_for P conv with
  | Normal req =>
      modify (λ st, set_sent (sent st ++ [req]) st) >> ret (Some req)
  | Throw err => send_failed err >> ret None
  end.

(** [sendMessageToOpenAI] from the settled body of the response [res] to
    its end. *)
Definition send_resume (res : Response) : JS unit :=
  try_finally
    (try_catch
       (let* assistantMessage := lift (reply_of P res) in
        push (Message (lit "assistant") assistantMessage) >>
        saveState P >>
        appendMessage (lit "ai") assistantMessage)
       (λ err, appendMessage (lit "ai") (VStr (friendlyMessage P err))))
    (setLoading false).

(** The submit handler from its start to the [await] of the call. *)
Definition submit_start : JS (option Request) :=
  let* typed := gets userInput in
  let text := trim typed in
  if is_empty text then ret None
  else
    push (Message (lit "user") (VStr text)) >>
    detectAndSaveUserName P text >>
    saveState P >>
    appendMessage (lit "user") (VStr text) >>
    modify (show_latest text) >>
    modify (set_userInput []) >>
    send_start.

End Flight.

(** What a call in flight waits for: [fetch] to settle for its request,
    or the body of its response to be read. *)
Inductive awaiting :=
| fetch_of (req : Request)
| body_of (res : Response).

(** What happens on the page: the user types an input and submits it, or
    the call at position [i] among those in flight gets what it waits
    for; for a [fetch], that is what the network [net] answers. *)
Inductive event :=
| Submit (input : jsstring)
| Settle (i : nat) (net : Network).

(** One event on a page with the calls in flight.  A handler that throws
    leaves the state it reached. *)
Definition handle (P : Platform) (ev : event) (page : State * list awaiting)
  : State * list awaiting :=
  match ev with
  | Submit input =>
      match submit_start P (set_userInput input page.1) with
      | (Normal (Some req), st) => (st, page.2 ++ [fetch_of req])
      | (_, st) => (st, page.2)
      end
  | Settle i net =>
      match page.2 !! i with
      | Some (fetch_of req) =>
          match net req with
          | Normal res => (page.1, <[i := body_of res]> page.2)
          | Throw e => (snd (send_failed P e page.1), delete i page.2)
          end
      | Some (body_of res) => (snd (send_resume P res page.1), delete i page.2)
      | None => page
      end
  end.

Definition run (P : Platform) (events : list event) (page : State * list awaiting)
  : State * list awaiting :=
  fold_left (λ page ev, handle P ev page) events page.

(** * The vocabulary of the properties *)

(** ** Entries of the conversation *)

(** An entry whose properties can be read: every value but [undefined]
    and [null].  Every message is one. *)
Definition readable (m : value) : Prop := nullish m = false.

(** The entry's role is ["system"]. *)
Definition is_system (m : value) : bool :=
  is_string (lit "system") (get_prop m (lit "role")).

Definition has_system (conv : list value) : Prop :=
  Exists (λ m, is_system m = true) conv.

(** The conversation starts with a system message. *)
Definition system_first (conv : list value) : Prop :=
  ∃ m rest, conv = m :: rest ∧ is_system m = true.

(** The entries that are not system messages, in their order. *)
Definition non_system (conv : list value) : list value :=
  filter (λ m, is_system m = false) conv.

(** The first system message, [undefined] when there is none. *)
Definition first_system (conv : list value) : value :=
  default VUndefined (List.find is_system conv).

(** What [trimConversation] leaves of a conversation. *)
Definition trimmed (conv : list value) : list value :=
  first_system conv :: slice_last MAX_CONVERSATION_MESSAGES (non_system conv).
Arguments trimmed : simpl never.

(** A conversation the script can work on: every entry is readable and one
    of them is a system message. *)
Definition well_formed (conv : list value) : Prop :=
  Forall readable conv ∧ has_system conv.

(** A conversation that trimming leaves as it is: one system message,
    then at most forty other entries. *)
Definition within_bound (conv : list value) : Prop :=
  ∃ sys others,
    conv = sys :: others ∧ is_system sys = true
    ∧ Forall (λ m, is_system m = false) others
    ∧ length others ≤ MAX_CONVERSATION_MESSAGES.

(** ** The states the functions of the script end in *)

Section Runs.
Context (P : Platform).

(** localStorage after [saveState()] ran with the conversation [conv]
    and the name [name]: the conversation is written first; a write that
    faults ends the [try] and is swallowed. *)
Definition written (conv : list value) (name : jsstring)
    (m : gmap jsstring jsstring) : gmap jsstring jsstring :=
  let text := JSON_stringify P (VArr conv) in
  match setItem_fault P m STORAGE_conversation text with
  | Some _ => m
  | None =>
      let m' := <[STORAGE_conversation := text]> m in
      match setItem_fault P m' STORAGE_userName name with
      | Some _ => m'
      | None => <[STORAGE_userName := name]> m'
      end
  end.

Definition saved (st : State) : State :=
  set_localStorage (written (conversation st) (userName st) (localStorage st)) st.

(** [userName] after [loadState()] read the stored name. *)
Definition restored_name (st : State) : jsstring :=
  match localStorage st !! STORAGE_userName with
  | Some (c :: n) => c :: n
  | _ => userName st
  end.

(** [conversation] after [loadState()] read the stored text: the parsed
    array when that is a non-empty array whose entries [some] could look
    at, with the system message put first if [some] found none. *)
Definition restored_conversation (st : State) : list value :=
  match localStorage st !! STORAGE_conversation with
  | Some (c :: r) =>
      match JSON_parse P (c :: r) with
      | Normal (VArr (m :: rest)) =>
          match Array_some role_is_system (m :: rest) with
          | Normal true => m :: rest
          | Normal false => system_message :: m :: rest
          | Throw _ => conversation st
          end
      | _ => conversation st
      end
  | _ => conversation st
  end.

(** The state a call ends in when its [try] block threw [e] in [st2]. *)
Definition failed_with (e : js_error) (st2 : State) : State :=
  loading false (append_div (lit "ai") (friendlyMessage P e) st2).

(** The text shown for a reply [a]: the reply when it is a string; any
    other value makes [appendMessage] throw a TypeError after the reply
    was pushed and saved, and the [catch] block shows its message. *)
Definition shown_for (a : value) : jsstring :=
  match a with
  | VStr s => s
  | _ => friendlyMessage P TypeError
  end.

(** The state a call ends in when it read the reply [a] in [st2]. *)
Definition replied (a : value) (st2 : State) : State :=
  let st3 :=
    set_conversation (conversation st2 ++ [Message (lit "assistant") a]) st2 in
  loading false (append_div (lit "ai") (shown_for a) (saved st3)).

(** What the remote call brings for the conversation [conv]: the
    assistant's text, or the error the [catch] block receives. *)
Definition call (net : Network) (conv : list value) : outcome value :=
  let? req := request_for P conv in
  let? res := net req in
  reply_of P res.

(** The state the [try ... catch ... finally] ends in when it starts in
    [st1], by what happened: no request could be built, the request failed
    or brought no text, or a reply was read. *)
Definition finish (net : Network) (st1 : State) : State :=
  match request_for P (conversation st1) with
  | Throw e => failed_with e (loading true st1)
  | Normal req =>
      let st2 := set_sent (sent st1 ++ [req]) (loading true st1) in
      match (let? res := net req in reply_of P res) with
      | Throw e => failed_with e st2
      | Normal a => replied a st2
      end
  end.

(** The state a call ends in on a conversation of readable entries. *)
Definition after_send (net : Network) (st : State) : State :=
  finish net (set_conversation (trimmed (conversation st)) st).

(** The state in which the handler calls [sendMessageToOpenAI], for an
    input that trims to [text]. *)
Definition before_send (text : jsstring) (st : State) : State :=
  let st1 :=
    set_conversation (conversation st ++ [Message (lit "user") (VStr text)]) st in
  let st2 :=
    match match_name text with
    | Some name => saved (set_userName name st1)
    | None => st1
    end in
  set_userInput [] (show_latest text (append_div (lit "user") text (saved st2))).

End Runs.

(** ** Failures and sessions *)


(** A session: for each turn the user types the input and submits it, and
    the network of that turn answers before the next submit. *)
Fixpoint session (P : Platform) (turns : list (jsstring * Network)) (st : State)
  : State :=
  match turns with
  | [] => st
  | (input, net) :: rest =>
      session P rest (snd (submit P net (set_userInput input st)))
  end.

(** What a name is: a letter, then one to thirty letters, hyphens or
    apostrophes. *)
Definition name_shaped (n : jsstring) : Prop :=
  ∃ l more,
    n = l :: more ∧ is_letter l = true ∧ more ≠ []
    ∧ length more ≤ 30 ∧ Forall (λ c, is_name_char c = true) more.

(** ** What is drawn *)

(** One character as [escapeHtml] writes it. *)
Definition escaped_char (c : N) : jsstring :=
  if (c =? 38)%N then lit "&amp;"
  else if (c =? 60)%N then lit "&lt;"
  else if (c =? 62)%N then lit "&gt;"
  else if (c =? 34)%N then lit "&quot;"
  else if (c =? 39)%N then lit "&#39;"
  else [c].

(** One character of a message as [appendMessage] writes it into the
    page: escaped, a line feed as a line break. *)
Definition written_char (c : N) : jsstring :=
  if (c =? 10)%N then lit "<br>" else escaped_char c.

(** A character that is none of [<], [>], the double and the single
    quote. *)
Definition no_markup (c : N) : Prop :=
  c ≠ 60%N ∧ c ≠ 62%N ∧ c ≠ 34%N ∧ c ≠ 39%N.

(** The [div] that [renderConversation] draws for an entry whose role and
    content are strings. *)
Definition div_of (m : value) : option node :=
  match get_prop m (lit "role"), get_prop m (lit "content") with
  | VStr r, VStr c =>
      Some (message_div (if jsstring_eqb r (lit "assistant") then lit "ai" else r) c)
  | _, _ => None
  end.

(** An entry [renderConversation] can draw: a system message, or an entry
    with a role and a content that are strings. *)
Definition drawable (m : value) : Prop :=
  readable m ∧ (is_system m = true ∨ is_Some (div_of m)).

(** The [div]s of the entries that are not system messages. *)
Definition drawn (conv : list value) : list node :=
  omap div_of (non_system conv).

(** The entry's role is ["user"]. *)
Definition is_user (m : value) : bool :=
  is_string (lit "user") (get_prop m (lit "role")).

(** The content of an entry when it is a string, the empty text
    otherwise. *)
Definition content_text (m : value) : jsstring :=
  match get_prop m (lit "content") with
  | VStr c => c
  | _ => []
  end.

(** The latest question after the page has loaded with the conversation
    [conv]: the content of the last user message, when the page has the
    element and the conversation such a message. *)
Definition latest_shown (conv : list value) (q : option jsstring)
  : option jsstring :=
  match q, List.find is_user (rev conv) with
  | Some _, Some m => Some (content_text m)
  | _, _ => q
  end.

(** The conversation is one system message followed by at most [n]
    other entries, all readable. *)
Definition bounded_by (n : nat) (conv : list value) : Prop :=
  ∃ sys others,
    conv = sys :: others ∧ is_system sys = true
    ∧ Forall (λ m, readable m ∧ is_system m = false) others
    ∧ length others ≤ n.

(** The requests of a list all go to [u] and carry the content type as
    their only header. *)
Definition only_to (u : jsstring) (reqs : list Request) : Prop :=
  Forall (λ req, url req = u ∧ headers req = [content_type]) reqs.

(** The events of a session in which every call is settled before the
    next submit: the submit, the answer of the network, the body. *)
Definition one_by_one (turns : list (jsstring * Network)) : list event :=
  flat_map (λ turn, [Submit turn.1; Settle 0 turn.2; Settle 0 turn.2]) turns.

(** The largest number of calls in flight at any time of a run. *)
Fixpoint peak (P : Platform) (events : list event) (page : State * list awaiting)
  : nat :=
  match events with
  | [] => length page.2
  | ev :: rest => length page.2 `max` peak P rest (handle P ev page)
  end.

(** The conversation is bounded by forty and [c], less the calls in
    flight: a call that is settled may append one message. *)
Definition in_bounds (c : nat) (page : State * list awaiting) : Prop :=
  ∃ n, bounded_by n (conversation page.1) ∧ n + length page.2 ≤ 40 + c.

(** ** A platform and a network for the examples

    The examples run the script on concrete inputs.  Their platform prints
    JSON for values made of strings without control characters, arrays
    and objects, parses the documents listed in [example_documents] and
    rejects every other text; its storage never faults and secrets.js
    declares a worker.  The examples never reach a coercion: those fields
    hold the answers for the empty string, for zero and for a plain
    object.  The page has the send button and the latest-question
    element. *)

Fixpoint escape_json (s : jsstring) : jsstring :=
  match s with
  | [] => []
  | c :: t =>
      (if (c =? 34)%N || (c =? 92)%N then [92%N; c] else [c]) ++ escape_json t
  end.

Fixpoint example_stringify (v : value) : jsstring :=
  match v with
  | VUndefined | VNull => lit "null"
  | VBool b => if b then lit "true" else lit "false"
  | VNum _ => lit "0"
  | VStr s => [dquote] ++ escape_json s ++ [dquote]
  | VArr elems =>
      lit "["
      ++ (fix items (l : list value) : jsstring :=
            match l with
            | [] => []
            | [x] => example_stringify x
            | x :: rest => example_stringify x ++ lit "," ++ items rest
            end) elems
      ++ lit "]"
  | VObj props =>
      lit "{"
      ++ (fix fields (l : list (jsstring * value)) : jsstring :=
            match l with
            | [] => []
            | [(k, x)] =>
                [dquote] ++ escape_json k ++ [dquote] ++ lit ":"
                ++ example_stringify x
            | (k, x) :: rest =>
                [dquote] ++ escape_json k ++ [dquote] ++ lit ":"
                ++ example_stringify x ++ lit "," ++ fields rest
            end) props
      ++ lit "}"
  end.

Definition user_message (s : string) : value := Message (lit "user") (VStr (lit s)).

(** A stored conversation whose system message is not the first one. *)
Definition stored_system_second : list value :=
  [user_message "hi"; Message (lit "system") (VStr (lit "Be brief."))].

(** A stored conversation without a system message. *)
Definition stored_without_system : list value :=
  [user_message "hi"; Message (lit "assistant") (VStr (lit "Hello!"))].

Definition example_documents : list value :=
  [VArr stored_system_second; VArr stored_without_system].

Definition example_parse (s : jsstring) : outcome value :=
  match List.find (λ d, jsstring_eqb (example_stringify d) s) example_documents with
  | Some d => Normal d
  | None => Throw (OtherError (lit "Unexpected token"))
  end.

Definition example_platform : Platform :=
  {| JSON_parse := example_parse;
     JSON_stringify := example_stringify;
     getItem_fault := None;
     setItem_fault := λ _ _ _, None;
     StringToNumber := λ _, 0%float;
     NumberToString := λ _, lit "0";
     ToPrimitive := λ _ _, Normal (VStr (lit "[object Object]"));
     cfWorkerUrl := Some (lit "https://worker.example/chat");
     apiKey := None;
     apiKey_undeclared := lit "apiKey is not defined" |}.

(** The state of a page just loaded, before [loadState()]: the
    conversation holds the system message, no name is known. *)
Definition fresh (storage : gmap jsstring jsstring) : State :=
  {| conversation := [system_message];
     userName := [];
     localStorage := storage;
     chatWindow := [TextNode ([55357; 56395]%N ++ lit " Hello! How can I help you today?")];
     latestQuestion := Some [];
     userInput := [];
     sendBtn := Some {| disabled := false; opacity := [] |};
     sent := [] |}.

(** A page whose conversation is [conv] and whose localStorage is
    [storage]: nothing is shown, typed or sent yet. *)
Definition page_with (conv : list value) (storage : gmap jsstring jsstring)
  : State :=
  {| conversation := conv;
     userName := [];
     localStorage := storage;
     chatWindow := [];
     latestQuestion := Some [];
     userInput := [];
     sendBtn := Some {| disabled := false; opacity := [] |};
     sent := [] |}.

(** A response with status 200 whose JSON body is [data]. *)
Definition response_200 (data : value) : Response :=
  {| ok := true; status := 200; text := Normal (example_stringify data);
     json := Normal data |}.

(** [{choices: [{message: {content: x}}]}] *)
Definition completion (x : value) : value :=
  VObj [(lit "choices",
         VArr [VObj [(lit "message", VObj [(lit "content", x)])]])].

(** A system message and forty-five user messages, numbered by length. *)
Definition long_conversation : list value :=
  system_message
  :: ((λ n, Message (lit "user") (VStr (replicate n 97%N))) <$> seq 1 45).

(** The endpoint of the example: every request is answered with status
    200 and [{choices: [{message: {content: "X"}}]}]. *)
Definition answers_X : Network :=
  λ _, Normal (response_200 (completion (VStr (lit "X")))).

(** A stored conversation with a [null] after its system message. *)
Definition stored_with_null : list value :=
  [Message (lit "system") (VStr (lit "Be brief.")); VNull].

(** A conversation of three text messages. *)
Definition small_talk : list value :=
  [system_message; user_message "hi";
   Message (lit "assistant") (VStr (lit "Hello!"))].

(** The platform of the examples with [docs] as the documents it parses. *)
Definition platform_parsing (docs : list value) : Platform :=
  {| JSON_parse := λ s,
       match List.find (λ d, jsstring_eqb (example_stringify d) s) docs with
       | Some d => Normal d
       | None => Throw (OtherError (lit "Unexpected token"))
       end;
     JSON_stringify := example_stringify;
     getItem_fault := None;
     setItem_fault := λ _ _ _, None;
     StringToNumber := λ _, 0%float;
     NumberToString := λ _, lit "0";
     ToPrimitive := λ _ _, Normal (VStr (lit "[object Object]"));
     cfWorkerUrl := Some (lit "https://worker.example/chat");
     apiKey := None;
     apiKey_undeclared := lit "apiKey is not defined" |}.

(** The platform of the examples without secrets.js: no worker, no key. *)
Definition platform_without_secrets : Platform :=
  {| JSON_parse := example_parse;
     JSON_stringify := example_stringify;
     getItem_fault := None;
     setItem_fault := λ _ _ _, None;
     StringToNumber := λ _, 0%float;
     NumberToString := λ _, lit "0";
     ToPrimitive := λ _ _, Normal (VStr (lit "[object Object]"));
     cfWorkerUrl := None;
     apiKey := None;
     apiKey_undeclared := lit "apiKey is not defined" |}.

(** * Properties *)

(** ** The script on concrete inputs *)

Example trim_strips_unicode_spaces :
  trim ([160; 9]%N ++ lit "hi there" ++ [12288; 10]%N) = lit "hi there".
Proof. reflexivity. Qed.

Example decimal_500 : decimal 500 = lit "500".
Proof. reflexivity. Qed.

Example escapeHtml_markup :
  escapeHtml (lit "<b> & 'x'") = lit "&lt;b&gt; &amp; &#39;x&#39;".
Proof. reflexivity. Qed.

Example match_name_im : match_name (lit "Hi, I'm Dana") = Some (lit "Dana").
Proof. reflexivity. Qed.

Example match_name_question : match_name (lit "What products do you have?") = None.
Proof. reflexivity. Qed.

(** The group stops at the first character that is not a letter, a hyphen
    or an apostrophe. *)
Example match_name_hyphen :
  match_name (lit "my name is  Anne-Marie O'Neil") = Some (lit "Anne-Marie").
Proof. reflexivity. Qed.

(** A place where the words match but no name follows is passed over. *)
Example match_name_later : match_name (lit "I am 5 and I'm Bob") = Some (lit "Bob").
Proof. reflexivity. Qed.

(** A single letter is no name: the group needs two characters. *)
Example match_name_single_letter : match_name (lit "I am A") = None.
Proof. reflexivity. Qed.

Example failed_to_fetch_any_case :
  isNetworkErr (OtherError (lit "Error: Failed to Fetch")) = true.
Proof. reflexivity. Qed.

(** An empty text counts as no text. *)
Example assistant_text_empty :
  assistant_text example_platform (completion (VStr []))
  = Throw (OtherError no_assistant_message).
Proof. reflexivity. Qed.

(** A reply wrapped in a [body] field by a proxy. *)
Example assistant_text_wrapped :
  assistant_text example_platform
    (VObj [(lit "body", completion (VStr (lit "Hello!")))])
  = Normal (VStr (lit "Hello!")).
Proof. reflexivity. Qed.

(** ** Entries of the conversation *)

Ltac js_unfold :=
  unfold bind, try_catch, try_finally, lift, gets, modify, ret, throw in *.

Lemma jsstring_eqb_eq (a b : jsstring) : jsstring_eqb a b = true ↔ a = b.
Proof.
  revert b; induction a as [|x a IH]; intros [|y b]; simpl; try easy.
  rewrite andb_true_iff, N.eqb_eq, IH. split.
  - intros [-> ->]; reflexivity.
  - intros [= -> ->]; auto.
Qed.

Lemma readable_Message r c : readable (Message r c).
Proof. reflexivity. Qed.

Lemma is_system_readable m : is_system m = true → readable m.
Proof. destruct m; simpl; try discriminate; reflexivity. Qed.

Lemma is_system_Message r c :
  is_system (Message r c) = jsstring_eqb r (lit "system").
Proof. reflexivity. Qed.

Lemma role_is_system_readable m :
  readable m → role_is_system m = Normal (is_system m).
Proof. unfold readable, role_is_system, get, is_system. intros ->. reflexivity. Qed.

Lemma role_not_system_readable m :
  readable m → role_not_system m = Normal (negb (is_system m)).
Proof. unfold readable, role_not_system, get, is_system. intros ->. reflexivity. Qed.

Lemma Array_find_readable conv :
  Forall readable conv →
  Array_find role_is_system conv = Normal (first_system conv).
Proof.
  unfold first_system. induction 1 as [|m conv Hm _ IH]; [reflexivity|].
  simpl. rewrite (role_is_system_readable m Hm). simpl.
  destruct (is_system m); [reflexivity | exact IH].
Qed.

Lemma Array_filter_readable conv :
  Forall readable conv →
  Array_filter role_not_system conv = Normal (non_system conv).
Proof.
  unfold non_system. induction 1 as [|m conv Hm _ IH]; [reflexivity|].
  simpl. rewrite (role_not_system_readable m Hm), IH. simpl.
  rewrite filter_cons. destruct (is_system m); reflexivity.
Qed.

(** [some] stops at the first system message: the entries before it must
    be readable, the ones after it are not looked at. *)
Lemma Array_some_true conv :
  Array_some role_is_system conv = Normal true → has_system conv.
Proof.
  unfold has_system. induction conv as [|m conv IH]; simpl; [discriminate|].
  unfold role_is_system at 1, get. destruct (nullish m) eqn:Hm; [discriminate|].
  simpl. fold (is_system m). destruct (is_system m) eqn:Hs.
  - intros _. by left.
  - intros H. right. auto.
Qed.

Lemma Array_some_readable conv :
  Forall readable conv →
  ∃ b, Array_some role_is_system conv = Normal b ∧ (b = true ↔ has_system conv).
Proof.
  unfold has_system. induction 1 as [|m conv Hm _ IH]; simpl.
  - exists false. split; [reflexivity|]. rewrite Exists_nil. naive_solver.
  - rewrite (role_is_system_readable m Hm). simpl.
    destruct (is_system m) eqn:Hs.
    + exists true. split; [reflexivity|]. split; [|done]. intros _. by left.
    + destruct IH as (b & -> & Hb). exists b. split; [reflexivity|].
      rewrite Exists_cons, Hs, Hb. split; [by right | by intros [?|?]].
Qed.

Lemma first_system_spec conv :
  has_system conv →
  is_system (first_system conv) = true ∧ first_system conv ∈ conv.
Proof.
  unfold has_system, first_system. induction conv as [|m conv IH].
  - intros H; inversion H.
  - intros H. simpl. destruct (is_system m) eqn:Hs; simpl.
    + split; [exact Hs | left].
    + apply Exists_cons in H as [H|H]; [congruence|].
      destruct (IH H) as [? ?]. split; [done | by right].
Qed.

Lemma non_system_app conv1 conv2 :
  non_system (conv1 ++ conv2) = non_system conv1 ++ non_system conv2.
Proof. apply filter_app. Qed.

Lemma non_system_Forall conv : Forall (λ m, is_system m = false) (non_system conv).
Proof.
  apply Forall_forall. intros m Hm. by apply list_elem_of_filter in Hm as [? _].
Qed.

Lemma non_system_id conv :
  Forall (λ m, is_system m = false) conv → non_system conv = conv.
Proof.
  unfold non_system. induction 1 as [|m conv Hm _ IH]; [reflexivity|].
  rewrite filter_cons_True by done. by rewrite IH.
Qed.

Lemma slice_last_suffix n a : slice_last n a `suffix_of` a.
Proof. apply suffix_drop. Qed.

Lemma slice_last_length n a : length (slice_last n a) = n `min` length a.
Proof. unfold slice_last. rewrite length_drop. lia. Qed.

Lemma slice_last_all n a : length a ≤ n → slice_last n a = a.
Proof. unfold slice_last. intros H. by replace (length a - n) with 0 by lia. Qed.

Lemma slice_last_snoc n a m : slice_last (S n) (a ++ [m]) = slice_last n a ++ [m].
Proof.
  unfold slice_last. rewrite length_app. simpl.
  replace (length a + 1 - S n) with (length a - n) by lia.
  rewrite drop_app_le by lia. reflexivity.
Qed.

Lemma non_system_trimmed conv :
  has_system conv →
  non_system (trimmed conv) = slice_last MAX_CONVERSATION_MESSAGES (non_system conv).
Proof.
  intros H. destruct (first_system_spec conv H) as [Hs _].
  unfold trimmed, non_system at 1. rewrite filter_cons_False by congruence.
  apply non_system_id. eapply Forall_forall. intros m Hm.
  assert (m ∈ non_system conv) as Hin.
  { eapply elem_of_suffix; [exact Hm | apply slice_last_suffix]. }
  by apply list_elem_of_filter in Hin as [? _].
Qed.

(** ** Escaping, character by character *)

Lemma replaceAll_app p r a b :
  replaceAll p r (a ++ b) = replaceAll p r a ++ replaceAll p r b.
Proof.
  induction a as [|c a IH]; simpl; [done|]. by rewrite IH, app_assoc.
Qed.

Lemma escapeHtml_app a b : escapeHtml (a ++ b) = escapeHtml a ++ escapeHtml b.
Proof. unfold escapeHtml. by rewrite !replaceAll_app. Qed.

Ltac split_char c :=
  unfold escaped_char;
  destruct (N.eqb_spec c 38) as [->|];
    [|destruct (N.eqb_spec c 60) as [->|];
      [|destruct (N.eqb_spec c 62) as [->|];
        [|destruct (N.eqb_spec c 34) as [->|];
          [|destruct (N.eqb_spec c 39) as [->|]]]]];
  simpl.

Ltac split_written c :=
  unfold written_char;
  destruct (N.eqb_spec c 10) as [->|]; [simpl | split_char c].

Lemma N_eqb_ne (c k : N) : c ≠ k → (c =? k)%N = false.
Proof. intros H. by apply N.eqb_neq. Qed.

Lemma escapeHtml_char c : escapeHtml [c] = escaped_char c.
Proof.
  unfold escapeHtml. split_char c; try reflexivity.
  rewrite !N_eqb_ne by done. simpl. rewrite !N_eqb_ne by done. simpl.
  rewrite !N_eqb_ne by done. simpl. rewrite !N_eqb_ne by done. simpl.
  by rewrite !N_eqb_ne by done.
Qed.

(** The chain of replacements is one substitution, character by
    character: the ampersand is replaced first, so the ampersands of the
    entities are not escaped again. *)
Lemma escapeHtml_flat_map s : escapeHtml s = flat_map escaped_char s.
Proof.
  induction s as [|c s IH]; [reflexivity|].
  change (c :: s) with ([c] ++ s). rewrite escapeHtml_app, IH, escapeHtml_char.
  reflexivity.
Qed.

Lemma flat_map_concat_fmap {A B} (f : A → list B) (l : list A) :
  flat_map f l = concat (f <$> l).
Proof. induction l as [|x l IH]; [reflexivity|]. simpl. by rewrite IH. Qed.

Lemma message_div_flat_map role s :
  message_div role s = Div (lit "msg " ++ role) (flat_map written_char s).
Proof.
  unfold message_div. f_equal. rewrite escapeHtml_flat_map.
  induction s as [|c s IH]; [reflexivity|]. simpl.
  rewrite replaceAll_app, IH. f_equal.
  split_written c; try reflexivity. by rewrite N_eqb_ne by done.
Qed.

(** ** What the button and the chat window updates leave alone *)

Lemma loading_conversation b st : conversation (loading b st) = conversation st.
Proof. unfold loading. by destruct (sendBtn st). Qed.

Lemma loading_userName b st : userName (loading b st) = userName st.
Proof. unfold loading. by destruct (sendBtn st). Qed.

Lemma loading_localStorage b st : localStorage (loading b st) = localStorage st.
Proof. unfold loading. by destruct (sendBtn st). Qed.

Lemma loading_chatWindow b st : chatWindow (loading b st) = chatWindow st.
Proof. unfold loading. by destruct (sendBtn st). Qed.

Lemma loading_sent b st : sent (loading b st) = sent st.
Proof. unfold loading. by destruct (sendBtn st). Qed.

Lemma loading_userInput b st : userInput (loading b st) = userInput st.
Proof. unfold loading. by destruct (sendBtn st). Qed.

Lemma loading_latestQuestion b st : latestQuestion (loading b st) = latestQuestion st.
Proof. unfold loading. by destruct (sendBtn st). Qed.

(** The button, if the page has one, ends up as [setLoading] set it. *)
Lemma loading_sendBtn b st :
  sendBtn (loading b st)
  = (λ _, {| disabled := b; opacity := if b then lit "0.6" else lit "" |})
    <$> sendBtn st.
Proof. unfold loading. destruct (sendBtn st) eqn:E; simpl; by rewrite ?E. Qed.

Lemma show_latest_conversation t st : conversation (show_latest t st) = conversation st.
Proof. unfold show_latest. by destruct (latestQuestion st). Qed.

Lemma show_latest_userName t st : userName (show_latest t st) = userName st.
Proof. unfold show_latest. by destruct (latestQuestion st). Qed.

Lemma show_latest_localStorage t st : localStorage (show_latest t st) = localStorage st.
Proof. unfold show_latest. by destruct (latestQuestion st). Qed.

Lemma show_latest_chatWindow t st : chatWindow (show_latest t st) = chatWindow st.
Proof. unfold show_latest. by destruct (latestQuestion st). Qed.

Lemma show_latest_sent t st : sent (show_latest t st) = sent st.
Proof. unfold show_latest. by destruct (latestQuestion st). Qed.

Lemma show_latest_sendBtn t st : sendBtn (show_latest t st) = sendBtn st.
Proof. unfold show_latest. by destruct (latestQuestion st). Qed.

Create Rewrite HintDb fields.
#[global] Hint Rewrite loading_conversation loading_userName loading_localStorage
  loading_chatWindow loading_sent loading_userInput loading_latestQuestion
  loading_sendBtn show_latest_conversation show_latest_userName
  show_latest_localStorage show_latest_chatWindow show_latest_sent
  show_latest_sendBtn : fields.

Ltac fields := repeat (progress (autorewrite with fields; simpl)).

Lemma storage_keys_differ : STORAGE_conversation ≠ STORAGE_userName.
Proof. discriminate. Qed.

Section Facts.
Context (P : Platform).

(** *** saveState *)

Lemma saveState_spec st : saveState P st = (Normal tt, saved P st).
Proof.
  unfold saveState, saved, written, setItem. js_unfold. simpl.
  destruct (setItem_fault P (localStorage st) _ _) eqn:E1; simpl.
  - by destruct st.
  - replace (if is_empty (userName st) then lit "" else userName st)
      with (userName st) by (by destruct (userName st)).
    destruct (setItem_fault P _ STORAGE_userName _); reflexivity.
Qed.

(** When the first write is taken, the stored text is the conversation. *)
Lemma written_conversation conv name m :
  setItem_fault P m STORAGE_conversation (JSON_stringify P (VArr conv)) = None →
  written P conv name m !! STORAGE_conversation
  = Some (JSON_stringify P (VArr conv)).
Proof.
  unfold written. intros ->.
  destruct (setItem_fault P _ STORAGE_userName _).
  - apply lookup_insert_eq.
  - rewrite lookup_insert_ne by (symmetry; apply storage_keys_differ).
    apply lookup_insert_eq.
Qed.


(** When the writes are taken, the stored name is [name]. *)
Lemma written_userName conv name m :
  (∀ m' k v, setItem_fault P m' k v = None) →
  written P conv name m !! STORAGE_userName = Some name.
Proof. unfold written. intros H. rewrite !H. apply lookup_insert_eq. Qed.

(** *** loadState *)

(** [loadState] always returns. *)
Lemma loadState_spec st :
  loadState P st
  = (Normal tt,
     match getItem_fault P with
     | Some _ => st
     | None =>
         set_conversation (restored_conversation P st)
           (set_userName (restored_name st) st)
     end).
Proof.
  unfold loadState, getItem, restored_conversation, restored_name. js_unfold.
  destruct (getItem_fault P); simpl; [reflexivity|].
  destruct st as [conv name storage win latest input btn reqs]. simpl.
  destruct (storage !! STORAGE_userName) as [[|c n]|]; simpl;
    (destruct (storage !! STORAGE_conversation) as [[|c' r]|]; simpl;
       [reflexivity| |reflexivity]);
    (destruct (JSON_parse P (c' :: r)) as [[| | | | |[|m rest]|]|e]; simpl;
       try reflexivity);
    unfold set_conversation; simpl;
    (destruct (obind (role_is_system m) _) as [[|]|e']; reflexivity).
Qed.

(** *** trimConversation *)

Lemma trimConversation_spec st :
  Forall readable (conversation st) →
  trimConversation st
  = (Normal tt, set_conversation (trimmed (conversation st)) st).
Proof.
  intros H. unfold trimConversation. js_unfold. simpl.
  rewrite (Array_find_readable _ H), (Array_filter_readable _ H). reflexivity.
Qed.
(** *** sendMessageToOpenAI, path by path *)

(** The [try] statement never throws: the call throws only if the
    trimming before it does. *)
Lemma sendMessageToOpenAI_unfold net text st :
  sendMessageToOpenAI P net text st
  = match trimConversation st with
    | (Normal _, st1) => (Normal tt, finish P net st1)
    | (Throw e, st1) => (Throw e, st1)
    end.
Proof.
  unfold sendMessageToOpenAI, bind at 1.
  destruct (trimConversation st) as [[[]|e] st1]; [|reflexivity].
  unfold try_finally, try_catch, setLoading, do_fetch, push, appendMessage.
  js_unfold. simpl. unfold finish. rewrite loading_conversation.
  destruct (request_for P (conversation st1)) as [req|e]; simpl; [|reflexivity].
  rewrite loading_sent.
  destruct (net req) as [res|e]; simpl; [|reflexivity].
  destruct (reply_of P res) as [a|e]; simpl; [|reflexivity].
  rewrite saveState_spec. unfold replied. simpl. rewrite loading_conversation.
  destruct a; reflexivity.
Qed.

(** Trimming touches nothing but the conversation. *)
Lemma trimConversation_frame st :
  ∃ o c, trimConversation st = (o, set_conversation c st).
Proof.
  unfold trimConversation. js_unfold. simpl.
  destruct (Array_find _ _) as [sys|e]; simpl.
  - destruct (Array_filter _ _) as [others|e]; simpl; [by eauto|].
    exists (Throw e), (conversation st). by destruct st.
  - exists (Throw e), (conversation st). by destruct st.
Qed.

Lemma finish_userName net st1 : userName (finish P net st1) = userName st1.
Proof.
  unfold finish, failed_with, replied.
  destruct (request_for P _) as [req|e]; simpl; fields; [|done].
  destruct (let? res := net req in reply_of P res); simpl; fields; done.
Qed.

Lemma finish_conversation net st1 :
  conversation (finish P net st1)
  = conversation st1
    ++ match call P net (conversation st1) with
       | Normal a => [Message (lit "assistant") a]
       | Throw _ => []
       end.
Proof.
  unfold finish, call, failed_with, replied.
  destruct (request_for P _) as [req|e]; simpl; fields;
    [|by rewrite app_nil_r].
  destruct (net req) as [res|e]; simpl; fields; [|by rewrite app_nil_r].
  destruct (reply_of P res); simpl; fields; [done | by rewrite app_nil_r].
Qed.

Lemma finish_localStorage net st1 :
  localStorage (finish P net st1)
  = match call P net (conversation st1) with
    | Normal a =>
        written P (conversation st1 ++ [Message (lit "assistant") a])
          (userName st1) (localStorage st1)
    | Throw _ => localStorage st1
    end.
Proof.
  unfold finish, call, failed_with, replied.
  destruct (request_for P _) as [req|e]; simpl; fields; [|done].
  destruct (net req) as [res|e]; simpl; fields; [|done].
  destruct (reply_of P res); simpl; fields; done.
Qed.

Lemma finish_chatWindow net st1 :
  chatWindow (finish P net st1)
  = chatWindow st1
    ++ [message_div (lit "ai")
          match call P net (conversation st1) with
          | Normal a => shown_for P a
          | Throw e => friendlyMessage P e
          end].
Proof.
  unfold finish, call, failed_with, replied.
  destruct (request_for P _) as [req|e]; simpl; fields; [|done].
  destruct (net req) as [res|e]; simpl; fields; [|done].
  destruct (reply_of P res); simpl; fields; done.
Qed.

Lemma finish_sendBtn net st1 :
  sendBtn (finish P net st1)
  = (λ _, {| disabled := false; opacity := lit "" |}) <$> sendBtn st1.
Proof.
  unfold finish, failed_with, replied.
  destruct (request_for P _) as [req|e]; simpl; fields;
    [|by destruct (sendBtn st1)].
  destruct (let? res := net req in reply_of P res); simpl; fields;
    by destruct (sendBtn st1).
Qed.

(** The requests: the one built for the conversation, if one could be
    built, is added to those sent. *)
Lemma finish_sent net st1 :
  sent (finish P net st1)
  = sent st1
    ++ match request_for P (conversation st1) with
       | Normal req => [req]
       | Throw _ => []
       end.
Proof.
  unfold finish, failed_with, replied.
  destruct (request_for P _) as [req|e]; simpl; fields;
    [|by rewrite app_nil_r].
  destruct (let? res := net req in reply_of P res); simpl; fields; done.
Qed.

Lemma after_send_conversation net st :
  conversation (after_send P net st)
  = trimmed (conversation st)
    ++ match call P net (trimmed (conversation st)) with
       | Normal a => [Message (lit "assistant") a]
       | Throw _ => []
       end.
Proof. unfold after_send. by rewrite finish_conversation. Qed.

Lemma after_send_localStorage net st :
  localStorage (after_send P net st)
  = match call P net (trimmed (conversation st)) with
    | Normal a =>
        written P (trimmed (conversation st) ++ [Message (lit "assistant") a])
          (userName st) (localStorage st)
    | Throw _ => localStorage st
    end.
Proof. unfold after_send. by rewrite finish_localStorage. Qed.

Lemma after_send_sent net st :
  sent (after_send P net st)
  = sent st
    ++ match request_for P (trimmed (conversation st)) with
       | Normal req => [req]
       | Throw _ => []
       end.
Proof. unfold after_send. by rewrite finish_sent. Qed.

(** On a conversation of readable entries the call returns, whatever
    the network does. *)
Lemma sendMessageToOpenAI_spec net text st :
  Forall readable (conversation st) →
  sendMessageToOpenAI P net text st = (Normal tt, after_send P net st).
Proof.
  intros H. rewrite sendMessageToOpenAI_unfold.
  by rewrite (trimConversation_spec st H).
Qed.

Lemma sendMessageToOpenAI_userName net text st :
  userName (snd (sendMessageToOpenAI P net text st)) = userName st.
Proof.
  rewrite sendMessageToOpenAI_unfold.
  destruct (trimConversation_frame st) as (o & c & ->).
  destruct o as [[]|e]; simpl; [|done]. by rewrite finish_userName.
Qed.

(** *** The submit handler *)

Lemma submit_blank net st :
  trim (userInput st) = [] → submit P net st = (Normal tt, st).
Proof. intros H. unfold submit. js_unfold. simpl. by rewrite H. Qed.

Lemma submit_text net st :
  trim (userInput st) ≠ [] →
  submit P net st
  = sendMessageToOpenAI P net (trim (userInput st))
      (before_send P (trim (userInput st)) st).
Proof.
  intros H. unfold submit. unfold bind at 1, gets at 1. cbv beta iota.
  destruct (trim (userInput st)) as [|c text]; [done|].
  change (is_empty (c :: text)) with false. cbv iota.
  generalize (c :: text). clear. intros text.
  unfold before_send, push, detectAndSaveUserName, appendMessage.
  destruct (match_name text) as [name|]; js_unfold; simpl;
    rewrite !saveState_spec; reflexivity.
Qed.

Lemma before_send_conversation text st :
  conversation (before_send P text st)
  = conversation st ++ [Message (lit "user") (VStr text)].
Proof.
  unfold before_send. destruct (match_name text); simpl; fields; done.
Qed.

Lemma before_send_userName text st :
  userName (before_send P text st) = default (userName st) (match_name text).
Proof.
  unfold before_send. destruct (match_name text); simpl; fields; done.
Qed.

Lemma before_send_sendBtn text st : sendBtn (before_send P text st) = sendBtn st.
Proof.
  unfold before_send. destruct (match_name text); simpl; fields; done.
Qed.

Lemma before_send_sent text st : sent (before_send P text st) = sent st.
Proof.
  unfold before_send. destruct (match_name text); simpl; fields; done.
Qed.

Lemma before_send_chatWindow text st :
  chatWindow (before_send P text st)
  = chatWindow st ++ [message_div (lit "user") text].
Proof.
  unfold before_send. destruct (match_name text); simpl; fields; done.
Qed.
End Facts.

(** ** Trimming *)

(** C3.  On a conversation of readable entries that holds a system
    message, with [k] entries that are not system messages,
    [trimConversation] returns and the conversation is then the first
    system message followed by the last [min 40 k] of the other entries:
    it has [1 + min 40 k] entries, one system message among them, and the
    others stand in the order they had.  Nothing but the conversation
    changes. *)
Theorem trimConversation_keeps_recent st :
  Forall readable (conversation st) →
  has_system (conversation st) →
  let others := non_system (conversation st) in
  let k := length others in
  let recent := drop (k - 40) others in
  ∃ st',
    trimConversation st = (Normal tt, st')
    ∧ conversation st' = first_system (conversation st) :: recent
    ∧ length (conversation st') = 1 + 40 `min` k
    ∧ is_system (first_system (conversation st)) = true
    ∧ first_system (conversation st) ∈ conversation st
    ∧ Forall (λ m, is_system m = false) recent
    ∧ length recent = 40 `min` k
    ∧ recent `suffix_of` others
    ∧ others `sublist_of` conversation st
    ∧ (k ≤ 40 → recent = others)
    ∧ userName st' = userName st
    ∧ localStorage st' = localStorage st
    ∧ chatWindow st' = chatWindow st
    ∧ latestQuestion st' = latestQuestion st
    ∧ userInput st' = userInput st
    ∧ sendBtn st' = sendBtn st
    ∧ sent st' = sent st.
Proof.
  intros Hr Hs others k recent.
  assert (length recent = 40 `min` k) as Hlen.
  { subst recent k. rewrite length_drop. lia. }
  rewrite (trimConversation_spec st Hr). eexists; split; [reflexivity|].
  cbn [conversation userName localStorage chatWindow latestQuestion userInput
         sendBtn sent set_conversation].
  split_and!; try reflexivity.
  - unfold trimmed, slice_last, MAX_CONVERSATION_MESSAGES. cbn [length].
    fold others. fold k. fold recent. lia.
  - by apply first_system_spec.
  - by apply first_system_spec.
  - apply Forall_forall. intros m Hm.
    assert (m ∈ others) as Hin by (eapply elem_of_suffix; [exact Hm | apply suffix_drop]).
    by apply list_elem_of_filter in Hin as [? _].
  - exact Hlen.
  - apply suffix_drop.
  - apply sublist_filter.
  - intros Hk. subst recent. by replace (k - 40) with 0 by lia.
Qed.

Lemma readable_dec conv :
  forallb (λ m, negb (nullish m)) conv = true → Forall readable conv.
Proof.
  rewrite forallb_forall. intros H. apply Forall_forall. intros m Hm.
  apply list_elem_of_In, H in Hm. unfold readable. by destruct (nullish m).
Qed.

Lemma has_system_dec conv : existsb is_system conv = true → has_system conv.
Proof.
  rewrite existsb_exists. intros (m & Hm & Hs). apply Exists_exists.
  exists m. split; [by apply list_elem_of_In | done].
Qed.

(** A system message and forty-five user messages: the last forty are
    kept, the first five are gone. *)
Lemma trimConversation_keeps_recent_witness :
  let system :=
    VObj [(lit "role", VStr (lit "system")); (lit "content", VStr systemPrompt)] in
  let user n :=
    VObj [(lit "role", VStr (lit "user")); (lit "content", VStr (replicate n 97%N))] in
  ∃ st',
    trimConversation (page_with (system :: (user <$> seq 1 45)) ∅) = (Normal tt, st')
    ∧ conversation st' = system :: (user <$> seq 6 40)
    ∧ length (conversation st') = 41.
Proof.
  intros system user.
  destruct (trimConversation_keeps_recent (page_with (system :: (user <$> seq 1 45)) ∅))
    as (st' & Htrim & Hconv & Hlen & _).
  - apply readable_dec. vm_compute. reflexivity.
  - apply has_system_dec. vm_compute. reflexivity.
  - exists st'. split; [exact Htrim|]. split.
    + rewrite Hconv. vm_compute. reflexivity.
    + rewrite Hlen. vm_compute. reflexivity.
Defined.

(** ** Blank input *)

Lemma drop_spaces_blank s : Forall (λ c, is_space c = true) s → drop_spaces s = [].
Proof. induction 1 as [|c s Hc _ IH]; simpl; [done | by rewrite Hc]. Qed.

Lemma trim_blank s : Forall (λ c, is_space c = true) s → trim s = [].
Proof. intros H. unfold trim. by rewrite (drop_spaces_blank s H). Qed.

(** C7.  When the input is empty or holds white space only, the submit
    handler returns and leaves the whole state as it was: the
    conversation, localStorage and the list of requests sent included. *)
Theorem submit_blank_is_noop P net st :
  Forall (λ c, is_space c = true) (userInput st) →
  submit P net st = (Normal tt, st).
Proof. intros H. apply submit_blank. by apply trim_blank. Qed.

Lemma submit_blank_is_noop_witness :
  let st := set_userInput (lit "  " ++ [9; 160; 12288]%N) (fresh ∅) in
  submit example_platform (λ _, Throw TypeError) st = (Normal tt, st).
Proof.
  intros st. apply (submit_blank_is_noop example_platform).
  repeat constructor.
Defined.

(** ** Restoring *)

(** C6.  When the text stored under the conversation key does not parse,
    [loadState] run on the initial conversation returns, and the
    conversation is still the system message alone. *)
Theorem loadState_unparseable P st raw e :
  conversation st = [system_message] →
  localStorage st !! STORAGE_conversation = Some raw →
  JSON_parse P raw = Throw e →
  ∃ st', loadState P st = (Normal tt, st')
         ∧ conversation st' = [system_message].
Proof.
  intros Hc Hraw Hp. rewrite loadState_spec. eexists; split; [reflexivity|].
  destruct (getItem_fault P); [done|]. simpl.
  unfold restored_conversation. rewrite Hraw.
  destruct raw as [|c r]; [done|]. by rewrite Hp.
Qed.

Lemma loadState_unparseable_witness :
  ∃ st',
    loadState example_platform
      (fresh {[ STORAGE_conversation := lit "[{role: user" ]})
    = (Normal tt, st')
    ∧ conversation st' = [system_message].
Proof.
  eapply (loadState_unparseable example_platform); reflexivity.
Defined.

(** C2, as stated, fails: a stored array whose system message is not its
    first element is taken as it is, so the restored conversation starts
    with a user message. *)
Lemma loadState_system_not_first :
  let storage :=
    {[ STORAGE_conversation := example_stringify (VArr stored_system_second) ]} in
  let st' := snd (loadState example_platform (fresh storage)) in
  conversation st' = stored_system_second
  ∧ ¬ system_first (conversation st').
Proof.
  intros storage st'.
  assert (conversation st' = stored_system_second) as Hc by (vm_compute; reflexivity).
  split; [exact Hc|]. rewrite Hc. intros (m & rest & [= <- _] & Hs). discriminate.
Qed.

(** C2, amended.  [loadState] run on the initial conversation returns and
    leaves a conversation that holds a system message.  For a stored text
    that parses to an array, [some] looks at the entries in their order.
    When all entries are readable and none is a system message, the
    conversation is the system message followed by the array.  When it
    finds a system message, after readable entries that are none, the
    conversation is the array as it is: it starts with a system message
    if the array does.  When it comes to an entry that is [null] or
    [undefined] before any system message, reading the role throws, the
    error is caught and the conversation stays the system message
    alone. *)
Theorem loadState_restores_system P st :
  conversation st = [system_message] →
  let system :=
    VObj [(lit "role", VStr (lit "system")); (lit "content", VStr systemPrompt)] in
  ∃ st',
    loadState P st = (Normal tt, st')
    ∧ has_system (conversation st')
    ∧ ∀ raw elems,
        getItem_fault P = None →
        localStorage st !! lit "loreal_chat_conversation" = Some raw →
        raw ≠ [] →
        JSON_parse P raw = Normal (VArr elems) →
        (Forall readable elems →
         Forall (λ m, is_system m = false) elems →
         conversation st' = system :: elems)
        ∧ (system_first elems →
           conversation st' = elems ∧ system_first (conversation st'))
        ∧ (∀ before sys after,
             elems = before ++ sys :: after →
             Forall (λ m, readable m ∧ is_system m = false) before →
             is_system sys = true →
             conversation st' = elems)
        ∧ (∀ before bad after,
             elems = before ++ bad :: after →
             Forall (λ m, readable m ∧ is_system m = false) before →
             nullish bad = true →
             conversation st' = [system]).
Proof.
  intros Hc system.
  assert (has_system [system_message]) as Hsys by (by left).
  assert (∀ before m after b,
            Forall (λ m, readable m ∧ is_system m = false) before →
            role_is_system m = b →
            (b = Normal true ∨ ∃ e, b = Throw e) →
            Array_some role_is_system (before ++ m :: after) = b) as Hsome.
  { intros before m after b Hb Hm Hcases.
    induction Hb as [|x before [Hx Hn] _ IH]; simpl.
    - rewrite Hm. by destruct Hcases as [->|[e ->]].
    - rewrite (role_is_system_readable x Hx), Hn. simpl. exact IH. }
  rewrite loadState_spec. eexists; split; [reflexivity|]. split.
  - destruct (getItem_fault P); simpl; [by rewrite Hc|].
    unfold restored_conversation.
    destruct (localStorage st !! STORAGE_conversation) as [[|c r]|];
      try (by rewrite Hc).
    destruct (JSON_parse P (c :: r)) as [[| | | | |[|m rest]|]|e];
      try (by rewrite Hc).
    destruct (Array_some role_is_system (m :: rest)) as [[|]|e] eqn:Hsome';
      [by apply Array_some_true | by left | by rewrite Hc].
  - intros raw elems -> Hraw Hne Hp. simpl.
    change (lit "loreal_chat_conversation") with STORAGE_conversation in Hraw.
    unfold restored_conversation. rewrite Hraw.
    destruct raw as [|c r]; [done|]. rewrite Hp. split_and!.
    + intros Hr Hn. destruct elems as [|m rest]; [by rewrite Hc|].
      destruct (Array_some_readable _ Hr) as (b & -> & Hiff).
      destruct b; [|done]. exfalso.
      destruct Hiff as [Hiff _]. specialize (Hiff eq_refl).
      apply Exists_exists in Hiff as (x & Hx & Hxs).
      rewrite Forall_forall in Hn. specialize (Hn x Hx). congruence.
    + intros (m & rest & -> & Hm). simpl.
      rewrite (role_is_system_readable m (is_system_readable m Hm)). simpl.
      rewrite Hm. split; [done|]. by exists m, rest.
    + intros before sys after He Hb Hs.
      destruct elems as [|m rest]; [by destruct before|]. rewrite He.
      rewrite (Hsome before sys after (Normal true) Hb); [done| |by left].
      by rewrite (role_is_system_readable sys (is_system_readable sys Hs)), Hs.
    + intros before bad after He Hb Hbad.
      destruct elems as [|m rest]; [by destruct before|]. rewrite He.
      rewrite (Hsome before bad after (Throw TypeError) Hb);
        [by rewrite Hc| |right; by eexists].
      unfold role_is_system, get. by rewrite Hbad.
Qed.

(** Two stored arrays without a system message: a user message and a
    reply, and a user message followed by [null]. *)
Lemma loadState_restores_system_witness :
  let system :=
    VObj [(lit "role", VStr (lit "system")); (lit "content", VStr systemPrompt)] in
  let user := VObj [(lit "role", VStr (lit "user")); (lit "content", VStr (lit "hi"))] in
  let reply :=
    VObj [(lit "role", VStr (lit "assistant")); (lit "content", VStr (lit "Hello!"))] in
  let P := platform_parsing [VArr [user; reply]; VArr [user; VNull]] in
  let stored elems :=
    {[ lit "loreal_chat_conversation" := example_stringify (VArr elems) ]} in
  conversation (snd (loadState P (fresh (stored [user; reply]))))
  = [system; user; reply]
  ∧ conversation (snd (loadState P (fresh (stored [user; VNull]))))
    = [system].
Proof.
  intros system user reply P stored. split.
  - destruct (loadState_restores_system P (fresh (stored [user; reply])))
      as (st' & -> & _ & H); [reflexivity|].
    cbn [snd].
    apply (H (example_stringify (VArr [user; reply])) [user; reply]);
      try reflexivity; [discriminate | repeat constructor..].
  - destruct (loadState_restores_system P (fresh (stored [user; VNull])))
      as (st' & -> & _ & H); [reflexivity|].
    cbn [snd].
    destruct (H (example_stringify (VArr [user; VNull])) [user; VNull])
      as (_ & _ & _ & Hnull); try reflexivity; [discriminate|].
    apply (Hnull [user] VNull []); [reflexivity | repeat constructor | reflexivity].
Defined.

(** ** The shape a session keeps *)

Lemma system_first_has_system conv : system_first conv → has_system conv.
Proof. intros (m & rest & -> & Hm). by left. Qed.

Lemma system_first_app conv more : system_first conv → system_first (conv ++ more).
Proof. intros (m & rest & -> & Hm). by exists m, (rest ++ more). Qed.

Lemma has_system_app conv more : has_system conv → has_system (conv ++ more).
Proof. intros H. apply Exists_app. by left. Qed.

Lemma trimmed_system_first conv : has_system conv → system_first (trimmed conv).
Proof. intros H. eexists _, _. split; [reflexivity|]. by apply first_system_spec. Qed.

Lemma trimmed_readable conv : well_formed conv → Forall readable (trimmed conv).
Proof.
  intros [Hr Hs]. constructor.
  - apply is_system_readable. by apply first_system_spec.
  - rewrite Forall_forall in Hr. apply Forall_forall. intros m Hm. apply Hr.
    eapply elem_of_suffix in Hm; [|apply slice_last_suffix].
    by apply list_elem_of_filter in Hm as [_ ?].
Qed.

Lemma trimmed_well_formed conv : well_formed conv → well_formed (trimmed conv).
Proof.
  intros H. split; [by apply trimmed_readable|].
  apply system_first_has_system, trimmed_system_first, H.
Qed.

Lemma well_formed_snoc conv r c :
  well_formed conv → well_formed (conv ++ [Message r c]).
Proof.
  intros [Hr Hs]. split; [|by apply has_system_app].
  apply Forall_app. split; [done|]. constructor; [apply readable_Message | done].
Qed.

Lemma trimmed_within_bound conv : within_bound conv → trimmed conv = conv.
Proof.
  intros (sys & others & -> & Hs & Hn & Hlen).
  unfold trimmed, first_system, non_system. simpl. rewrite Hs. simpl.
  rewrite filter_cons_False by congruence. fold (non_system others).
  rewrite (non_system_id others Hn). by rewrite slice_last_all.
Qed.

Lemma trimmed_is_within_bound conv : has_system conv → within_bound (trimmed conv).
Proof.
  intros H. exists (first_system conv), (slice_last MAX_CONVERSATION_MESSAGES (non_system conv)).
  split; [done|]. split; [by apply first_system_spec|]. split.
  - apply Forall_forall. intros m Hm.
    eapply elem_of_suffix in Hm; [|apply slice_last_suffix].
    by apply list_elem_of_filter in Hm as [? _].
  - rewrite slice_last_length. lia.
Qed.

(** Trimming twice is trimming once. *)
Lemma trimmed_idempotent conv : has_system conv → trimmed (trimmed conv) = trimmed conv.
Proof. intros H. by apply trimmed_within_bound, trimmed_is_within_bound. Qed.

(** ** A reply *)

Lemma assistant_text_completion P x :
  x ≠ [] → assistant_text P (completion (VStr x)) = Normal (VStr x).
Proof. destruct x as [|c x]; [done|]. reflexivity. Qed.

Lemma assistant_text_truthy P data a :
  assistant_text P data = Normal a → truthy a = true.
Proof.
  unfold assistant_text, require_text.
  destruct (text_from_choices P data) as [first|e]; simpl; [|done].
  destruct (truthy (text_from_body P data first)) eqn:E.
  - by intros [= <-].
  - destruct (truthy (opt_get data (lit "error"))); [|done].
    by destruct (ToString P _).
Qed.

Lemma call_truthy P net conv a : call P net conv = Normal a → truthy a = true.
Proof.
  unfold call, reply_of.
  destruct (request_for P conv) as [req|e]; simpl; [|done].
  destruct (net req) as [res|e]; simpl; [|done].
  destruct (ok res).
  - destruct (json res) as [data|e]; simpl; [|done]. apply assistant_text_truthy.
  - by destruct (text res).
Qed.

(** C4.  When the endpoint answers the request with a successful response
    whose JSON is [{choices: [{message: {content: x}}]}] for a non-empty
    text [x] (["X"] for one), the call returns and the conversation is the
    trimmed conversation with the one entry [{role: "assistant", content:
    x}] appended; one request was sent, [x] is shown in one [div] of
    class [msg ai], and [saveState] has written that conversation: it is
    the text stored under the conversation key whenever localStorage
    takes the write.  On a conversation within the bound nothing is
    trimmed and the entry is appended to the conversation as it was. *)
Theorem reply_is_appended_and_saved P net messageText st req res x :
  Forall readable (conversation st) →
  x ≠ [] →
  let others := non_system (conversation st) in
  let live := first_system (conversation st) :: drop (length others - 40) others in
  let reply :=
    VObj [(lit "role", VStr (lit "assistant")); (lit "content", VStr x)] in
  request_for P live = Normal req →
  net req = Normal res →
  ok res = true →
  json res
  = Normal
      (VObj [(lit "choices",
              VArr [VObj [(lit "message", VObj [(lit "content", VStr x)])]])]) →
  ∃ st',
    sendMessageToOpenAI P net messageText st = (Normal tt, st')
    ∧ conversation st' = live ++ [reply]
    ∧ (within_bound (conversation st) →
       conversation st' = conversation st ++ [reply])
    ∧ chatWindow st'
      = chatWindow st ++ [Div (lit "msg ai") (flat_map written_char x)]
    ∧ sent st' = sent st ++ [req]
    ∧ userName st' = userName st
    ∧ localStorage st'
      = written P (live ++ [reply]) (userName st) (localStorage st)
    ∧ (setItem_fault P (localStorage st) (lit "loreal_chat_conversation")
         (JSON_stringify P (VArr (live ++ [reply]))) = None →
       localStorage st' !! lit "loreal_chat_conversation"
       = Some (JSON_stringify P (VArr (live ++ [reply])))).
Proof.
  intros Hr Hx others live reply Hreq Hnet Hok Hjson.
  assert (trimmed (conversation st) = live) as Hlive by reflexivity.
  assert (call P net live = Normal (VStr x)) as Hcall.
  { unfold call. rewrite Hreq. simpl. rewrite Hnet. simpl.
    unfold reply_of. rewrite Hok, Hjson. simpl.
    by apply (assistant_text_completion P x). }
  rewrite (sendMessageToOpenAI_spec P net messageText st Hr).
  eexists; split; [reflexivity|]. unfold after_send.
  rewrite finish_conversation, finish_chatWindow, finish_localStorage,
    finish_sent, finish_userName.
  cbn [conversation chatWindow localStorage sent userName set_conversation].
  rewrite Hlive, Hcall, Hreq. cbn [shown_for].
  rewrite message_div_flat_map. split_and!; try done.
  - intros Hb. by rewrite <- Hlive, (trimmed_within_bound _ Hb).
  - intros Hw. by apply written_conversation.
Qed.

(** The endpoint answers ["X"] to ["hello"]. *)
Lemma reply_is_appended_and_saved_witness :
  let system :=
    VObj [(lit "role", VStr (lit "system")); (lit "content", VStr systemPrompt)] in
  let user :=
    VObj [(lit "role", VStr (lit "user")); (lit "content", VStr (lit "hello"))] in
  let reply :=
    VObj [(lit "role", VStr (lit "assistant")); (lit "content", VStr (lit "X"))] in
  let answer :=
    VObj [(lit "choices",
           VArr [VObj [(lit "message", VObj [(lit "content", VStr (lit "X"))])]])] in
  let net : Network :=
    λ _, Normal {| ok := true; status := 200;
                   text := Normal (example_stringify answer);
                   json := Normal answer |} in
  ∃ st',
    sendMessageToOpenAI example_platform net (lit "hello")
      (page_with [system; user] ∅)
    = (Normal tt, st')
    ∧ conversation st' = [system; user; reply]
    ∧ chatWindow st' = [Div (lit "msg ai") (lit "X")]
    ∧ length (sent st') = 1
    ∧ localStorage st' !! lit "loreal_chat_conversation"
      = Some (example_stringify (VArr [system; user; reply])).
Proof.
  intros system user reply answer net.
  destruct (reply_is_appended_and_saved example_platform net (lit "hello")
              (page_with [system; user] ∅)
              {| url := lit "https://worker.example/chat"; method := lit "POST";
                 headers := [content_type];
                 body := example_stringify
                           (VObj [(lit "messages", VArr [system; user])]) |}
              {| ok := true; status := 200;
                 text := Normal (example_stringify answer);
                 json := Normal answer |}
              (lit "X"))
    as (st' & Hsend & Hconv & _ & Hwin & Hsent & _ & _ & Hstored).
  - repeat constructor.
  - discriminate.
  - reflexivity.
  - reflexivity.
  - reflexivity.
  - reflexivity.
  - exists st'. split; [exact Hsend|]. split; [exact Hconv|].
    split; [exact Hwin|]. split; [by rewrite Hsent|].
    exact (Hstored eq_refl).
Defined.

(** ** Failures *)






(** C5.  On a well-formed conversation the call returns whatever the
    network does, and adds exactly one [div] of class [msg ai] to the chat
    window.  When the [try] block threw, nothing is appended to the
    conversation and the [div] holds the text made from the error: the
    network text for a TypeError or a message that holds "failed to
    fetch", ["Error: "] and the message otherwise, the general apology
    for an empty message.  The errors by category: what [fetch] rejected
    with; ["API error: "], the status and the text of the response for a
    status that is not a success; what [res.json()] rejected with for a
    body that is not JSON; that there is no assistant message for data
    without choices, body and error; ["OpenAI error: "] and the
    provider's message for data with an error object.  The send button is
    enabled again, the conversation is well formed, and the next submit
    returns. *)
Theorem failure_is_shown_once P net messageText st :
  well_formed (conversation st) →
  let others := non_system (conversation st) in
  let live := first_system (conversation st) :: drop (length others - 40) others in
  let network_error :=
    match cfWorkerUrl P with
    | Some (c :: u) =>
        lit "Network error: could not reach the Cloudflare Worker at "
        ++ (c :: u)
        ++ lit ". Make sure the worker is deployed and that CORS/OPENAI_API_KEY"
        ++ lit " are configured. See console for details."
    | _ =>
        lit "Network error: could not reach the OpenAI API. Check your internet"
        ++ lit " connection and API key configuration. See console for details."
    end in
  ∃ st' shown,
    sendMessageToOpenAI P net messageText st = (Normal tt, st')
    ∧ chatWindow st'
      = chatWindow st ++ [Div (lit "msg ai") (flat_map written_char shown)]
    ∧ (∀ e, call P net live = Throw e →
         conversation st' = live
         ∧ localStorage st' = localStorage st
         ∧ match e with
           | TypeError => shown = network_error
           | OtherError m =>
               if ci_test (lit "failed to fetch") m then shown = network_error
               else if is_empty m then
                 shown
                 = lit "Sorry " ++ [emdash]
                   ++ lit " there was an error getting a response."
               else shown = lit "Error: " ++ m
           end)
    ∧ (∀ req e,
         request_for P live = Normal req → net req = Throw e →
         call P net live = Throw e)
    ∧ (∀ req res txt,
         request_for P live = Normal req → net req = Normal res →
         ok res = false → text res = Normal txt →
         call P net live
         = Throw (OtherError
                    (lit "API error: " ++ decimal (status res) ++ lit " " ++ txt)))
    ∧ (∀ req res e,
         request_for P live = Normal req → net req = Normal res →
         ok res = true → json res = Throw e →
         call P net live = Throw e)
    ∧ (∀ req res data,
         request_for P live = Normal req → net req = Normal res →
         ok res = true → json res = Normal data →
         truthy (opt_get data (lit "choices")) = false →
         truthy (get_prop data (lit "body")) = false →
         (truthy (opt_get data (lit "error")) = false →
          call P net live
          = Throw (OtherError
                     (lit "No assistant message in response " ++ [emdash]
                      ++ lit " see console for full API response")))
         ∧ (∀ c m,
              get_prop (opt_get data (lit "error")) (lit "message") = VStr (c :: m) →
              call P net live
              = Throw (OtherError (lit "OpenAI error: " ++ c :: m))))
    ∧ sendBtn st'
      = (λ _, {| disabled := false; opacity := lit "" |}) <$> sendBtn st
    ∧ well_formed (conversation st')
    ∧ ∀ net' input,
        ∃ st'', submit P net' (set_userInput input st') = (Normal tt, st'').
Proof.
  intros Hw others live network_error.
  assert (trimmed (conversation st) = live) as Hlive by reflexivity.
  rewrite (sendMessageToOpenAI_spec P net messageText st (proj1 Hw)).
  exists (after_send P net st),
    (match call P net live with
     | Normal a => shown_for P a
     | Throw e => friendlyMessage P e
     end).
  split; [reflexivity|].
  assert (well_formed (conversation (after_send P net st))) as Hw'.
  { rewrite after_send_conversation. destruct (call P net _).
    - by apply well_formed_snoc, trimmed_well_formed.
    - rewrite app_nil_r. by apply trimmed_well_formed. }
  rewrite after_send_conversation, Hlive in Hw'. unfold after_send.
  rewrite finish_conversation, finish_chatWindow, finish_sendBtn,
    finish_localStorage.
  cbn [conversation chatWindow sendBtn localStorage set_conversation].
  rewrite Hlive, message_div_flat_map. split; [reflexivity|]. split_and!.
  - intros e He. rewrite He, app_nil_r. split; [done|]. split; [done|].
    unfold friendlyMessage, isNetworkErr, workerUrl. subst network_error.
    destruct e as [|m].
    + by destruct (cfWorkerUrl P) as [[|c u]|].
    + destruct (ci_test (lit "failed to fetch") m).
      * by destruct (cfWorkerUrl P) as [[|c u]|].
      * by destruct m.
  - intros req e H1 H2. unfold call. rewrite H1. simpl. by rewrite H2.
  - intros req res txt H1 H2 H3 H4. unfold call, reply_of.
    rewrite H1. simpl. rewrite H2. simpl. by rewrite H3, H4.
  - intros req res e H1 H2 H3 H4. unfold call, reply_of.
    rewrite H1. simpl. rewrite H2. simpl. by rewrite H3, H4.
  - intros req res data H1 H2 H3 H4 Hchoices Hbody.
    assert (call P net live = require_text P data VNull) as ->.
    { unfold call, reply_of. rewrite H1. simpl. rewrite H2. simpl.
      rewrite H3, H4. simpl. unfold assistant_text, text_from_choices.
      rewrite Hchoices. simpl. unfold text_from_body. rewrite Hbody.
      by rewrite andb_false_r. }
    unfold require_text. cbn [truthy]. split.
    + by intros ->.
    + intros c m Hm.
      destruct (opt_get data (lit "error")) as [| | | |t| |props] eqn:He;
        try (by vm_compute in Hm).
      cbn [truthy]. by rewrite Hm.
  - reflexivity.
  - exact Hw'.
  - intros net' input.
    destruct (trim input) as [|c t] eqn:E.
    + rewrite submit_blank by done. by eexists.
    + rewrite submit_text by (cbn [userInput set_userInput]; by rewrite E).
      rewrite sendMessageToOpenAI_spec; [by eexists|].
      rewrite before_send_conversation. cbn [conversation set_userInput].
      rewrite finish_conversation. cbn [conversation set_conversation].
      rewrite ?Hlive. exact (proj1 (well_formed_snoc _ _ _ Hw')).
Qed.

(** The endpoint answers with status 500; the button was left disabled. *)
Lemma failure_is_shown_once_witness :
  let system :=
    VObj [(lit "role", VStr (lit "system")); (lit "content", VStr systemPrompt)] in
  let user :=
    VObj [(lit "role", VStr (lit "user")); (lit "content", VStr (lit "hello"))] in
  let net : Network :=
    λ _, Normal {| ok := false; status := 500;
                   text := Normal (lit "Internal Server Error");
                   json := Throw (OtherError (lit "Unexpected token")) |} in
  let st :=
    {| conversation := [system; user];
       userName := [];
       localStorage := ∅;
       chatWindow := [];
       latestQuestion := None;
       userInput := [];
       sendBtn := Some {| disabled := true; opacity := lit "0.6" |};
       sent := [] |} in
  ∃ st',
    sendMessageToOpenAI example_platform net (lit "hello") st = (Normal tt, st')
    ∧ chatWindow st'
      = [Div (lit "msg ai") (lit "Error: API error: 500 Internal Server Error")]
    ∧ conversation st' = [system; user]
    ∧ localStorage st' = ∅
    ∧ sendBtn st' = Some {| disabled := false; opacity := lit "" |}
    ∧ ∃ st'',
        submit example_platform net (set_userInput (lit "again") st')
        = (Normal tt, st'').
Proof.
  intros system user net st.
  destruct (failure_is_shown_once example_platform net (lit "hello") st)
    as (st' & shown & Hsend & Hwin & Herr & _ & Hstatus & _ & _ & Hbtn & _ & Hnext).
  - split; [repeat constructor | by left].
  - specialize (Hstatus _ _ (lit "Internal Server Error")
                  eq_refl eq_refl eq_refl eq_refl).
    destruct (Herr _ Hstatus) as (Hconv & Hstore & Hshown).
    vm_compute in Hshown. subst shown.
    exists st'. split; [exact Hsend|]. split; [exact Hwin|].
    split; [exact Hconv|]. split; [exact Hstore|]. split; [exact Hbtn|].
    apply Hnext.
Defined.

(** ** Turns *)

Lemma is_system_user text : is_system (Message (lit "user") (VStr text)) = false.
Proof. reflexivity. Qed.

Lemma non_system_snoc_user conv text :
  non_system (conv ++ [Message (lit "user") (VStr text)])
  = non_system conv ++ [Message (lit "user") (VStr text)].
Proof. by rewrite non_system_app. Qed.

Lemma first_system_app conv more :
  has_system conv → first_system (conv ++ more) = first_system conv.
Proof.
  unfold has_system, first_system. induction conv as [|m conv IH].
  - intros H; inversion H.
  - intros H. simpl. destruct (is_system m) eqn:Hs; [done|].
    apply Exists_cons in H as [H|H]; [congruence | by apply IH].
Qed.

Lemma trimmed_unfold conv :
  trimmed conv
  = first_system conv :: slice_last MAX_CONVERSATION_MESSAGES (non_system conv).
Proof. reflexivity. Qed.

(** Trimming after the push: the user's message is the last one kept. *)
Lemma trimmed_snoc_user conv text :
  has_system conv →
  trimmed (conv ++ [Message (lit "user") (VStr text)])
  = first_system conv
    :: slice_last 39 (non_system conv) ++ [Message (lit "user") (VStr text)].
Proof.
  intros H. rewrite trimmed_unfold, non_system_snoc_user, first_system_app by done.
  unfold MAX_CONVERSATION_MESSAGES. by rewrite slice_last_snoc.
Qed.

(** A turn keeps the conversation well formed, and so does a session:
    from a fresh page every conversation the script works on is. *)
Lemma submit_well_formed P net st :
  well_formed (conversation st) →
  well_formed (conversation (snd (submit P net st))).
Proof.
  intros Hw. destruct (trim (userInput st)) as [|c t] eqn:E.
  - by rewrite submit_blank.
  - rewrite submit_text by (by rewrite E).
    assert (well_formed (conversation (before_send P (trim (userInput st)) st)))
      as Hw'.
    { rewrite before_send_conversation. by apply well_formed_snoc. }
    rewrite (sendMessageToOpenAI_spec P net _ _ (proj1 Hw')). cbn [snd].
    rewrite after_send_conversation.
    destruct (call P net _).
    + by apply well_formed_snoc, trimmed_well_formed.
    + rewrite app_nil_r. by apply trimmed_well_formed.
Qed.

Lemma session_well_formed P turns st :
  well_formed (conversation st) →
  well_formed (conversation (session P turns st)).
Proof.
  revert st. induction turns as [|[input net] turns IH]; intros st Hw; [done|].
  simpl. apply IH. by apply submit_well_formed.
Qed.


(** C1, as stated, fails.  After twenty answered turns the conversation
    holds the system message and forty others; a further turn whose
    request is rejected pushes the user's message, trims the oldest one
    away and appends nothing: the length is what it was. *)
Lemma submit_at_bound_keeps_length :
  let st :=
    session example_platform (replicate 20 (lit "hello", answers_X)) (fresh ∅) in
  let st' :=
    snd (submit example_platform (λ _, Throw TypeError)
           (set_userInput (lit "one more") st)) in
  trim (lit "one more") ≠ []
  ∧ length (conversation st) = 41
  ∧ length (conversation st') = 41
  ∧ ¬ (length (conversation st) + 1 ≤ length (conversation st')).
Proof.
  intros st st'.
  assert (length (conversation st) = 41) as H1 by (vm_compute; reflexivity).
  assert (length (conversation st') = 41) as H2 by (vm_compute; reflexivity).
  split; [discriminate|]. split; [exact H1|]. split; [exact H2|]. lia.
Qed.

(** C1, amended.  For an input that is not blank and a well-formed
    conversation with [k] entries that are not system messages, the submit
    handler returns; afterwards the conversation starts with a system
    message, holds the user's message, and has at least [1 + min 40 (k +
    1)] entries.  When the conversation was within the bound with [k <
    40], nothing is trimmed and it has grown by at least one. *)
Theorem submit_appends_user_message P net st :
  let text := trim (userInput st) in
  let k := length (non_system (conversation st)) in
  text ≠ [] →
  well_formed (conversation st) →
  ∃ st',
    submit P net st = (Normal tt, st')
    ∧ system_first (conversation st')
    ∧ Message (lit "user") (VStr text) ∈ conversation st'
    ∧ 1 + 40 `min` (k + 1) ≤ length (conversation st')
    ∧ (within_bound (conversation st) → k < 40 →
       length (conversation st) + 1 ≤ length (conversation st')).
Proof.
  intros text k Ht [Hr Hs]. rewrite (submit_text P net st Ht). fold text.
  assert (Forall readable (conversation (before_send P text st))) as Hr'.
  { rewrite before_send_conversation. apply Forall_app. split; [done|].
    constructor; [apply readable_Message | done]. }
  rewrite (sendMessageToOpenAI_spec P net text _ Hr').
  eexists; split; [reflexivity|].
  rewrite after_send_conversation, before_send_conversation.
  set (reply := match call P net _ with
                | Normal a => [Message (lit "assistant") a]
                | Throw _ => []
                end).
  rewrite (trimmed_snoc_user _ text Hs). split_and!.
  - eexists _, _. split; [reflexivity|]. by apply first_system_spec.
  - rewrite elem_of_app, elem_of_cons, elem_of_app, list_elem_of_singleton. auto.
  - rewrite length_app. cbn [length]. rewrite length_app, slice_last_length.
    cbn [length]. subst k. lia.
  - intros (sys & others & Hconv & Hsys & Hn & _) Hk.
    assert (k = length others) as Hko.
    { subst k. rewrite Hconv. unfold non_system.
      rewrite filter_cons_False by congruence. fold (non_system others).
      by rewrite non_system_id. }
    rewrite length_app. cbn [length]. rewrite length_app, slice_last_length.
    cbn [length]. fold k. rewrite Hconv. cbn [length]. lia.
Qed.

Lemma submit_appends_user_message_witness :
  let st := set_userInput (lit " hello ") (fresh ∅) in
  ∃ st',
    submit example_platform (λ _, Throw TypeError) st = (Normal tt, st')
    ∧ system_first (conversation st')
    ∧ user_message "hello" ∈ conversation st'
    ∧ length (conversation st) + 1 ≤ length (conversation st').
Proof.
  intros st.
  destruct (submit_appends_user_message example_platform (λ _, Throw TypeError) st)
    as (st' & Hsub & Hfirst & Hin & _ & Hlen).
  - discriminate.
  - split; [repeat constructor | by left].
  - exists st'. split; [exact Hsub|]. split; [exact Hfirst|]. split; [exact Hin|].
    apply Hlen; [|vm_compute; lia].
    exists system_message, []. split; [reflexivity|]. split; [reflexivity|].
    split; [constructor | simpl; lia].
Defined.

(** ** The name *)

Section Name.
Context (P : Platform).

(** After a turn the name is the one its input holds, if it holds one, and
    the name before otherwise, whatever the conversation or the network. *)
Lemma submit_userName net input st :
  userName (snd (submit P net (set_userInput input st)))
  = default (userName st) (match_name (trim input)).
Proof.
  destruct (trim input) as [|c t] eqn:E.
  - by rewrite submit_blank.
  - rewrite submit_text by (cbn [userInput set_userInput]; by rewrite E).
    rewrite sendMessageToOpenAI_userName, before_send_userName.
    cbn [userInput set_userInput userName]. by rewrite E.
Qed.

Lemma before_send_stored_name text st :
  (∀ m k v, setItem_fault P m k v = None) →
  localStorage (before_send P text st) !! STORAGE_userName
  = Some (userName (before_send P text st)).
Proof.
  intros H. unfold before_send.
  destruct (match_name text); simpl; fields; by apply written_userName.
Qed.

(** When localStorage takes the writes, a turn with an input that is not
    blank leaves the name stored under its key. *)
Lemma submit_stored_name net input st :
  (∀ m k v, setItem_fault P m k v = None) →
  trim input ≠ [] →
  localStorage (snd (submit P net (set_userInput input st))) !! STORAGE_userName
  = Some (userName (snd (submit P net (set_userInput input st)))).
Proof.
  intros H Ht. rewrite submit_text by done.
  cbn [userInput set_userInput]. generalize (set_userInput input st). intros st0.
  rewrite sendMessageToOpenAI_userName, sendMessageToOpenAI_unfold.
  destruct (trimConversation_frame (before_send P (trim input) st0))
    as (o & c & ->).
  destruct o as [[]|e]; cbn [snd]; [|by apply before_send_stored_name].
  rewrite finish_localStorage. cbn [conversation set_conversation userName localStorage].
  destruct (call P net c); [by apply written_userName|].
  by apply before_send_stored_name.
Qed.

Lemma session_userName turns st :
  userName (session P turns st)
  = fold_left (λ name turn, default name (match_name (trim turn.1)))
      turns (userName st).
Proof.
  revert st. induction turns as [|[input net] turns IH]; intros st; [done|].
  simpl. by rewrite IH, submit_userName.
Qed.

End Name.

(** C8.  Submitting ["Hi, I'm Dana"] sets [userName] to ["Dana"];
    submitting ["What products do you have?"] leaves [userName] as it
    was; in both cases the name is what is stored under the name key when
    localStorage takes the writes.  Over a session the name is the one
    detected last, the name the session started with if none was. *)
Theorem name_is_last_detected P net st :
  let dana := snd (submit P net (set_userInput (lit "Hi, I'm Dana") st)) in
  let question :=
    snd (submit P net (set_userInput (lit "What products do you have?") st)) in
  userName dana = lit "Dana"
  ∧ userName question = userName st
  ∧ ((∀ m k v, setItem_fault P m k v = None) →
     localStorage dana !! STORAGE_userName = Some (lit "Dana")
     ∧ localStorage question !! STORAGE_userName = Some (userName st))
  ∧ ∀ turns,
      userName (session P turns st)
      = fold_left (λ name turn, default name (match_name (trim turn.1)))
          turns (userName st).
Proof.
  intros dana question.
  assert (userName dana = lit "Dana") as Hd by apply submit_userName.
  assert (userName question = userName st) as Hq by apply submit_userName.
  split_and!; [exact Hd | exact Hq | |].
  - intros H. subst dana question.
    rewrite !submit_stored_name by done. by rewrite Hd, Hq.
  - intros turns. apply session_userName.
Qed.

(** Dana, then a question, then Alex: the name is Alex, in the variable
    and in localStorage. *)
Lemma name_is_last_detected_witness :
  let st :=
    session example_platform
      [(lit "Hi, I'm Dana", answers_X);
       (lit "What products do you have?", answers_X);
       (lit "Sorry, my name is Alex", answers_X)]
      (fresh ∅) in
  userName st = lit "Alex"
  ∧ localStorage st !! STORAGE_userName = Some (lit "Alex").
Proof.
  intros st. split.
  - subst st.
    rewrite (proj2 (proj2 (proj2 (name_is_last_detected example_platform answers_X (fresh ∅))))).
    reflexivity.
  - vm_compute. reflexivity.
Defined.

(** ** Trimming is done on the conversation itself *)



Lemma before_send_stored_conversation P text st :
  (∀ m k v, setItem_fault P m k v = None) →
  localStorage (before_send P text st) !! STORAGE_conversation
  = Some (JSON_stringify P
            (VArr (conversation st ++ [Message (lit "user") (VStr text)]))).
Proof.
  intros H. unfold before_send.
  destruct (match_name text); simpl; fields; by apply written_conversation.
Qed.




(** * Further properties *)

(** ** Escaping *)

(** X1.  The escaped text holds none of [<], [>], the double and the
    single quote, whatever the text. *)
Theorem escapeHtml_no_markup s : Forall no_markup (escapeHtml s).
Proof.
  rewrite escapeHtml_flat_map. induction s as [|c s IH]; simpl; [constructor|].
  apply Forall_app. split; [|exact IH]. unfold no_markup.
  split_char c; repeat constructor; done.
Qed.

(** X2.  Escaping loses nothing: two texts with the same escaped text are
    the same text. *)
Theorem escapeHtml_injective s t : escapeHtml s = escapeHtml t → s = t.
Proof.
  rewrite !escapeHtml_flat_map. revert t.
  induction s as [|c s IH]; intros [|d t]; simpl; [done|..].
  - split_char d; discriminate.
  - split_char c; discriminate.
  - split_char c; split_char d; intros H; simplify_eq; try done;
      f_equal; by apply IH.
Qed.

Lemma escapeHtml_injective_witness :
  escapeHtml (lit "a<b") = escapeHtml (lit "a<b") ∧ lit "a<b" = lit "a<b".
Proof.
  split; [reflexivity|]. apply (escapeHtml_injective (lit "a<b")). reflexivity.
Defined.

(** X3.  [appendMessage] with a text that is a string returns and adds
    one [div] after the ones in the chat window.  Its markup is made of
    pieces, one for each character of the text: a piece is the line break
    [<br>], for a line feed, or holds no [<], [>], quote or line feed: the
    line breaks are the only tags a message can bring into the page. *)
Theorem appendMessage_only_breaks role s st :
  ∃ pieces,
    appendMessage role (VStr s) st
    = (Normal tt,
       set_chatWindow (chatWindow st ++ [Div (lit "msg " ++ role) (concat pieces)]) st)
    ∧ length pieces = length s
    ∧ Forall (λ piece,
        piece = lit "<br>"
        ∨ Forall (λ c, no_markup c ∧ c ≠ 10%N) piece) pieces.
Proof.
  exists (written_char <$> s). split; [|split].
  - unfold appendMessage, modify, append_div. rewrite message_div_flat_map.
    by rewrite flat_map_concat_fmap.
  - by rewrite length_fmap.
  - apply Forall_fmap, Forall_forall. intros c _. simpl. unfold no_markup.
    split_written c; first [by left | right; repeat constructor; done].
Qed.

(** ** The name that is detected *)

Lemma ci_prefix_split p s rest :
  ci_prefix p s = Some rest →
  ∃ words, s = words ++ rest ∧ ci_prefix p words = Some [].
Proof.
  revert s. induction p as [|x p IH]; intros s; simpl.
  - intros [= ->]. by exists [].
  - destruct s as [|c s]; [done|].
    destruct (upper c =? upper x)%N eqn:E; [|done].
    intros H. destruct (IH s H) as (words & -> & Hw).
    exists (c :: words). simpl. by rewrite E.
Qed.

Lemma drop_spaces_split s :
  ∃ spaces, s = spaces ++ drop_spaces s ∧ Forall (λ c, is_space c = true) spaces.
Proof.
  induction s as [|c s (spaces & Hs & Hf)]; [by exists []|].
  simpl. destruct (is_space c) eqn:E; [|by exists []].
  exists (c :: spaces). split; [simpl; by f_equal | by constructor].
Qed.

Lemma take_name_chars_split n s :
  ∃ after,
    s = take_name_chars n s ++ after
    ∧ length (take_name_chars n s) ≤ n
    ∧ Forall (λ c, is_name_char c = true) (take_name_chars n s).
Proof.
  revert s. induction n as [|n IH]; intros s.
  - exists s. simpl. split; [done|]. split; [lia | constructor].
  - destruct s as [|c s]; simpl.
    + exists []. split; [done|]. split; [lia | constructor].
    + destruct (is_name_char c) eqn:E.
      * destruct (IH s) as (after & Hs & Hl & Hf). exists after. simpl.
        split; [by f_equal|]. split; [lia | by constructor].
      * exists (c :: s). split; [done|]. split; [simpl; lia | constructor].
Qed.

Lemma is_letter_name_char c : is_letter c = true → is_name_char c = true.
Proof. unfold is_name_char. by intros ->. Qed.

Lemma name_after_spaces_sound s n :
  name_after_spaces s = Some n →
  ∃ spaces after,
    s = spaces ++ n ++ after ∧ spaces ≠ []
    ∧ Forall (λ c, is_space c = true) spaces ∧ name_shaped n.
Proof.
  unfold name_after_spaces. destruct s as [|c s]; [done|].
  destruct (is_space c) eqn:Ec; [|done].
  change (drop_spaces (c :: s)) with (if is_space c then drop_spaces s else c :: s).
  rewrite Ec.
  destruct (drop_spaces_split s) as (spaces & Hs & Hf).
  destruct (drop_spaces s) as [|l t] eqn:Ed; [done|].
  destruct (is_letter l) eqn:El; [|done].
  destruct (take_name_chars_split 30 t) as (after & Ht & Hl & Hn).
  destruct (take_name_chars 30 t) as [|m more] eqn:Em; [done|].
  intros [= <-]. exists (c :: spaces), after. split_and!.
  - rewrite Hs at 1. simpl. by rewrite Ht at 1.
  - done.
  - by constructor.
  - exists l, (m :: more). split_and!; done.
Qed.

Lemma name_here_sound s n :
  name_here s = Some n →
  ∃ words spaces after,
    s = words ++ spaces ++ n ++ after
    ∧ (ci_prefix (lit "my name is") words = Some []
       ∨ ci_prefix (lit "i am") words = Some []
       ∨ ci_prefix (lit "i'm") words = Some [])
    ∧ spaces ≠ [] ∧ Forall (λ c, is_space c = true) spaces ∧ name_shaped n.
Proof.
  assert (∀ intro, name_after intro s = Some n →
    ∃ words spaces after,
      s = words ++ spaces ++ n ++ after ∧ ci_prefix intro words = Some []
      ∧ spaces ≠ [] ∧ Forall (λ c, is_space c = true) spaces ∧ name_shaped n)
    as Hone.
  { intros intro. unfold name_after.
    destruct (ci_prefix intro s) as [rest|] eqn:E; [|done]. intros H.
    destruct (ci_prefix_split _ _ _ E) as (words & -> & Hw).
    destruct (name_after_spaces_sound _ _ H) as (spaces & after & -> & ? & ? & ?).
    by exists words, spaces, after. }
  unfold name_here.
  destruct (name_after (lit "my name is") s) as [n1|] eqn:E1.
  { intros [= ->]. destruct (Hone _ E1) as (w & sp & a & ? & ? & ? & ? & ?).
    exists w, sp, a. auto 10. }
  destruct (name_after (lit "i am") s) as [n2|] eqn:E2.
  { intros [= ->]. destruct (Hone _ E2) as (w & sp & a & ? & ? & ? & ? & ?).
    exists w, sp, a. auto 10. }
  intros E3. destruct (Hone _ E3) as (w & sp & a & ? & ? & ? & ? & ?).
  exists w, sp, a. auto 10.
Qed.

(** X4.  A detected name is taken from the text as it stands: the text
    holds, in this order, one of the three introductions in any case,
    white space, and the name; the name is a letter followed by one to
    thirty letters, hyphens or apostrophes. *)
Theorem match_name_sound text n :
  match_name text = Some n →
  ∃ before words spaces after,
    text = before ++ words ++ spaces ++ n ++ after
    ∧ (ci_prefix (lit "my name is") words = Some []
       ∨ ci_prefix (lit "i am") words = Some []
       ∨ ci_prefix (lit "i'm") words = Some [])
    ∧ spaces ≠ [] ∧ Forall (λ c, is_space c = true) spaces
    ∧ name_shaped n.
Proof.
  induction text as [|c text IH].
  - intros H. by vm_compute in H.
  - change (match_name (c :: text))
      with (match name_here (c :: text) with
            | Some n => Some n
            | None => match_name text
            end).
    destruct (name_here (c :: text)) as [n'|] eqn:E.
    + intros [= ->]. destruct (name_here_sound _ _ E) as (w & sp & a & ? & ?).
      by exists [], w, sp, a.
    + intros H. destruct (IH H) as (b & w & sp & a & -> & ?).
      by exists (c :: b), w, sp, a.
Qed.

Lemma match_name_sound_witness :
  ∃ before words spaces after,
    lit "Hi, I'm Dana" = before ++ words ++ spaces ++ lit "Dana" ++ after
    ∧ (ci_prefix (lit "my name is") words = Some []
       ∨ ci_prefix (lit "i am") words = Some []
       ∨ ci_prefix (lit "i'm") words = Some [])
    ∧ spaces ≠ [] ∧ Forall (λ c, is_space c = true) spaces
    ∧ name_shaped (lit "Dana").
Proof. apply (match_name_sound (lit "Hi, I'm Dana")). reflexivity. Defined.

(** ** The text of a reply *)

(** X5.  On a conversation of readable entries the call appends at most
    one entry to the trimmed conversation, and the entry it appends is an
    assistant message whose content is not empty, not [null], not zero:
    what counts as no text is never stored as a reply. *)
Theorem appended_reply_has_text P net messageText st :
  Forall readable (conversation st) →
  ∃ reply,
    conversation (snd (sendMessageToOpenAI P net messageText st))
    = trimmed (conversation st) ++ reply
    ∧ length reply ≤ 1
    ∧ Forall (λ m, ∃ a, m = Message (lit "assistant") a ∧ truthy a = true) reply.
Proof.
  intros Hr. rewrite (sendMessageToOpenAI_spec P net messageText st Hr).
  cbn [snd]. rewrite after_send_conversation.
  destruct (call P net (trimmed (conversation st))) as [a|e] eqn:E.
  - eexists. split; [reflexivity|]. split; [simpl; lia|].
    constructor; [|constructor]. exists a. split; [done|].
    by apply (call_truthy P net (trimmed (conversation st)) a).
  - exists []. split; [reflexivity|]. split; [simpl; lia | constructor].
Qed.

Lemma appended_reply_has_text_witness :
  let st := set_conversation small_talk (fresh ∅) in
  ∃ reply,
    conversation
      (snd (sendMessageToOpenAI example_platform
              (λ _, Normal (response_200 (completion (VStr []))))
              (lit "hi") st))
    = trimmed small_talk ++ reply
    ∧ length reply ≤ 1
    ∧ Forall (λ m, ∃ a, m = Message (lit "assistant") a ∧ truthy a = true) reply.
Proof.
  intros st. apply (appended_reply_has_text example_platform). repeat constructor.
Defined.

(** X6.  When the first of the choices holds a message whose content is
    a text, or any other value that is not empty, that content is the
    reply, whatever else the data holds: neither a [body] field nor an
    [error] object is looked at. *)
Theorem message_content_wins P data choice more x :
  get_prop data (lit "choices") = VArr (choice :: more) →
  opt_get (opt_get choice (lit "message")) (lit "content") = x →
  truthy x = true →
  assistant_text P data = Normal x.
Proof.
  intros Hc Hx Ht.
  assert (nullish data = false) as Hd by (by destruct data).
  assert (nullish x = false) as Hn by (by destruct x).
  assert (choice_text choice = x) as Hchoice.
  { unfold choice_text. rewrite Hx. unfold coalesce at 1. by rewrite Hn. }
  assert (text_from_choices P data = Normal x) as Hfirst.
  { unfold text_from_choices, opt_get. rewrite Hd, Hc.
    cbn [truthy length_positive is_empty negb obind].
    replace (get_prop (VArr (choice :: more)) (lit "0")) with choice
      by reflexivity.
    by rewrite Hchoice. }
  unfold assistant_text. rewrite Hfirst. cbn [obind].
  unfold text_from_body, require_text. rewrite Ht. cbn [negb andb]. by rewrite Ht.
Qed.

Lemma message_content_wins_witness :
  assistant_text example_platform
    (VObj [(lit "error", VObj [(lit "message", VStr (lit "ignored"))]);
           (lit "choices",
            VArr [VObj [(lit "message", VObj [(lit "content", VStr (lit "Hello!"))]);
                        (lit "text", VStr (lit "other"))]])])
  = Normal (VStr (lit "Hello!")).
Proof.
  eapply (message_content_wins example_platform); reflexivity.
Defined.

(** ** Restoring, again *)

Lemma loadState_frame P st :
  ∃ st',
    loadState P st = (Normal tt, st')
    ∧ localStorage st' = localStorage st
    ∧ chatWindow st' = chatWindow st
    ∧ latestQuestion st' = latestQuestion st
    ∧ userInput st' = userInput st
    ∧ sendBtn st' = sendBtn st
    ∧ sent st' = sent st
    ∧ (getItem_fault P ≠ None → st' = st).
Proof.
  rewrite loadState_spec. eexists; split; [reflexivity|].
  destruct (getItem_fault P); simpl; split_and!; done.
Qed.

(** X7.  [loadState] returns from every state, and changes nothing but
    the conversation and the name: localStorage, the chat window, the
    input, the button, the latest question and the requests sent stay as
    they are.  When reading localStorage faults, nothing changes at all. *)
Theorem loadState_changes_two_variables P st :
  ∃ st',
    loadState P st = (Normal tt, st')
    ∧ localStorage st' = localStorage st
    ∧ chatWindow st' = chatWindow st
    ∧ latestQuestion st' = latestQuestion st
    ∧ userInput st' = userInput st
    ∧ sendBtn st' = sendBtn st
    ∧ sent st' = sent st
    ∧ (getItem_fault P ≠ None → st' = st).
Proof.
  rewrite loadState_spec. eexists; split; [reflexivity|].
  destruct (getItem_fault P) as [fault|]; simpl.
  - split_and!; done.
  - split_and!; try done.
Qed.

(** X8.  A name stored under the name key is restored whatever is stored
    under the conversation key, be it missing or not JSON. *)
Theorem loadState_restores_name P st name :
  getItem_fault P = None →
  localStorage st !! STORAGE_userName = Some name →
  name ≠ [] →
  userName (snd (loadState P st)) = name.
Proof.
  intros Hf Hn Hne. rewrite loadState_spec, Hf. simpl.
  unfold restored_name. rewrite Hn. by destruct name.
Qed.

Lemma loadState_restores_name_witness :
  userName
    (snd (loadState example_platform
            (fresh {[ STORAGE_userName := lit "Dana";
                      STORAGE_conversation := lit "[{role: user" ]})))
  = lit "Dana".
Proof.
  apply (loadState_restores_name example_platform); [reflexivity| |discriminate].
  vm_compute. reflexivity.
Defined.

(** X9.  Stored JSON that is not an array with at least one entry (an
    object, a string, a number, [null], the empty array) is ignored: the
    conversation stays as it was. *)
Theorem loadState_ignores_other_json P st raw v :
  localStorage st !! STORAGE_conversation = Some raw →
  JSON_parse P raw = Normal v →
  (∀ m rest, v ≠ VArr (m :: rest)) →
  conversation (snd (loadState P st)) = conversation st.
Proof.
  intros Hraw Hp Hv. rewrite loadState_spec.
  destruct (getItem_fault P); [done|]. simpl.
  unfold restored_conversation. rewrite Hraw.
  destruct raw as [|c r]; [done|]. rewrite Hp.
  destruct v as [| | | | |[|m rest]|]; try done. by destruct (Hv m rest).
Qed.

Lemma loadState_ignores_other_json_witness :
  conversation
    (snd (loadState (platform_parsing [VArr []; VObj [(lit "role", VStr (lit "user"))]])
            (fresh {[ STORAGE_conversation := lit "[]" ]})))
  = [system_message].
Proof.
  apply (loadState_ignores_other_json
           (platform_parsing [VArr []; VObj [(lit "role", VStr (lit "user"))]])
           (fresh {[ STORAGE_conversation := lit "[]" ]}) (lit "[]") (VArr []));
    [reflexivity | reflexivity | done].
Defined.

(** X10.  What [saveState] wrote, [loadState] reads back: on a platform
    whose storage takes the writes and whose [JSON.parse] gives back the
    conversation that [JSON.stringify] printed, a page that starts with
    the localStorage a state left restores the conversation of that
    state, and its name if it had one. *)
Theorem saveState_loadState_round_trip P st page :
  (∀ m k v, setItem_fault P m k v = None) →
  getItem_fault P = None →
  well_formed (conversation st) →
  JSON_stringify P (VArr (conversation st)) ≠ [] →
  JSON_parse P (JSON_stringify P (VArr (conversation st)))
  = Normal (VArr (conversation st)) →
  localStorage page = localStorage (snd (saveState P st)) →
  let st' := snd (loadState P page) in
  conversation st' = conversation st
  ∧ (userName st ≠ [] → userName st' = userName st).
Proof.
  intros Hw Hg [Hr Hs] Hne Hp Hpage st'. subst st'.
  rewrite saveState_spec in Hpage. simpl in Hpage.
  rewrite loadState_spec, Hg. simpl. split.
  - unfold restored_conversation. rewrite Hpage.
    rewrite (written_conversation P) by apply Hw.
    destruct (JSON_stringify P (VArr (conversation st))) as [|c r] eqn:E; [done|].
    rewrite Hp. destruct (conversation st) as [|m rest] eqn:Ec.
    { inversion Hs. }
    destruct (Array_some_readable _ Hr) as (b & -> & Hb).
    destruct b; [done|]. destruct Hb as [_ Hb]. by specialize (Hb Hs).
  - intros Hn. unfold restored_name. rewrite Hpage.
    rewrite (written_userName P) by apply Hw. by destruct (userName st).
Qed.

Lemma saveState_loadState_round_trip_witness :
  let P := platform_parsing [VArr small_talk] in
  let st := set_userName (lit "Dana") (set_conversation small_talk (fresh ∅)) in
  let st' := snd (loadState P (fresh (localStorage (snd (saveState P st))))) in
  conversation st' = small_talk ∧ userName st' = lit "Dana".
Proof.
  intros P st st'.
  assert (well_formed (conversation st)) as Hw
    by (split; [repeat constructor | by left]).
  assert (JSON_stringify P (VArr (conversation st)) ≠ []) as Hne by discriminate.
  assert (JSON_parse P (JSON_stringify P (VArr (conversation st)))
          = Normal (VArr (conversation st))) as Hp by (vm_compute; reflexivity).
  destruct (saveState_loadState_round_trip P st
              (fresh (localStorage (snd (saveState P st))))
              (λ _ _ _, eq_refl) eq_refl Hw Hne Hp eq_refl) as [Hc Hn].
  split; [exact Hc | by apply Hn].
Defined.

(** ** Trimming, again *)

(** X11.  On a well-formed conversation trimming twice is trimming
    once. *)
Theorem trimConversation_twice st :
  well_formed (conversation st) →
  (trimConversation >> trimConversation) st = trimConversation st.
Proof.
  intros Hw. unfold bind. rewrite (trimConversation_spec st (proj1 Hw)).
  rewrite (trimConversation_spec (set_conversation _ st) (trimmed_readable _ Hw)).
  cbn [conversation set_conversation].
  by rewrite (trimmed_idempotent _ (proj2 Hw)).
Qed.

Lemma trimConversation_twice_witness :
  let st := set_conversation long_conversation (fresh ∅) in
  (trimConversation >> trimConversation) st = trimConversation st.
Proof.
  intros st. apply trimConversation_twice.
  split; [apply readable_dec | apply has_system_dec]; vm_compute; reflexivity.
Defined.

Lemma role_is_system_outcome m :
  (∃ b, role_is_system m = Normal b) ∨ role_is_system m = Throw TypeError.
Proof. unfold role_is_system, get. destruct (nullish m); simpl; eauto. Qed.

Lemma Array_find_outcome conv :
  (∃ v, Array_find role_is_system conv = Normal v)
  ∨ Array_find role_is_system conv = Throw TypeError.
Proof.
  induction conv as [|m conv IH]; simpl; [by eauto|].
  destruct (role_is_system_outcome m) as [[b ->]| ->]; simpl; [|by right].
  destruct b; [by eauto | exact IH].
Qed.

Lemma Array_filter_unreadable conv :
  Exists (λ m, nullish m = true) conv →
  Array_filter role_not_system conv = Throw TypeError.
Proof.
  induction 1 as [m conv Hm|m conv _ IH]; simpl.
  - unfold role_not_system, get. by rewrite Hm.
  - unfold role_not_system at 1, get. destruct (nullish m); simpl; [done|].
    by rewrite IH.
Qed.

Lemma trimConversation_unreadable st :
  Exists (λ m, nullish m = true) (conversation st) →
  trimConversation st = (Throw TypeError, st).
Proof.
  intros H. unfold trimConversation. js_unfold. simpl.
  destruct (Array_find_outcome (conversation st)) as [[v ->]| ->]; simpl; [|done].
  by rewrite (Array_filter_unreadable _ H).
Qed.

Lemma sendMessageToOpenAI_unreadable P net messageText st :
  Exists (λ m, nullish m = true) (conversation st) →
  sendMessageToOpenAI P net messageText st = (Throw TypeError, st).
Proof.
  intros H. rewrite sendMessageToOpenAI_unfold.
  by rewrite (trimConversation_unreadable st H).
Qed.

(** X12.  When an entry of the conversation is [null] or [undefined],
    the call throws a TypeError out of the trimming, which is outside its
    [try]: the state is as it was, nothing is sent, nothing is shown and
    the button is not touched. *)
Theorem unreadable_entry_stops_call P net messageText st :
  Exists (λ m, nullish m = true) (conversation st) →
  sendMessageToOpenAI P net messageText st = (Throw TypeError, st).
Proof.
  intros H. rewrite sendMessageToOpenAI_unfold.
  unfold trimConversation. js_unfold. simpl.
  destruct (Array_find_outcome (conversation st)) as [[v ->]| ->]; simpl; [|done].
  by rewrite (Array_filter_unreadable _ H).
Qed.

Lemma unreadable_entry_stops_call_witness :
  let st := set_conversation stored_with_null (fresh ∅) in
  sendMessageToOpenAI example_platform answers_X (lit "hello") st
  = (Throw TypeError, st).
Proof.
  intros st. apply (unreadable_entry_stops_call example_platform).
  right. by left.
Defined.

Lemma submit_unreadable P net st :
  Exists (λ m, nullish m = true) (conversation st) →
  trim (userInput st) ≠ [] →
  submit P net st = (Throw TypeError, before_send P (trim (userInput st)) st).
Proof.
  intros Hnull Ht. rewrite submit_text by done.
  apply sendMessageToOpenAI_unreadable.
  rewrite before_send_conversation. apply Exists_app. by left.
Qed.

(** Turns on a conversation with an unreadable entry: the entry stays, the
    conversation only grows at its end, nothing is sent. *)
Lemma session_unreadable P turns st :
  Exists (λ m, nullish m = true) (conversation st) →
  Exists (λ m, nullish m = true) (conversation (session P turns st))
  ∧ conversation st `prefix_of` conversation (session P turns st)
  ∧ sent (session P turns st) = sent st.
Proof.
  revert st. induction turns as [|[input net] turns IH]; intros st Hnull; [done|].
  cbn [session].
  destruct (trim input) as [|c t] eqn:E.
  - rewrite submit_blank by done. cbn [snd].
    destruct (IH (set_userInput input st) Hnull) as (? & ? & ?). done.
  - rewrite submit_unreadable by (cbn [userInput set_userInput]; by rewrite ?E).
    cbn [snd userInput set_userInput].
    destruct (IH (before_send P (trim input) (set_userInput input st)))
      as (H1 & H2 & H3).
    + rewrite before_send_conversation. apply Exists_app. by left.
    + rewrite before_send_conversation, before_send_sent in *.
      cbn [conversation sent set_userInput] in *. split_and!; [done| |done].
      etrans; [|exact H2]. by apply prefix_app_r.
Qed.

(** X13.  A stored array that starts with a system message is restored as
    it is, also when a later entry is [null]: [some] stops at the system
    message.  From then on every turn with an input that is not blank,
    the first and each one after it, throws a TypeError from the handler:
    the user's message is pushed and shown, and over the whole session no
    request is sent and no reply or failure is shown. *)
Theorem restored_null_stops_turns P st raw m rest :
  getItem_fault P = None →
  localStorage st !! STORAGE_conversation = Some raw →
  raw ≠ [] →
  JSON_parse P raw = Normal (VArr (m :: rest)) →
  is_system m = true →
  Exists (λ m, nullish m = true) rest →
  let st1 := snd (loadState P st) in
  conversation st1 = m :: rest
  ∧ sent st1 = sent st
  ∧ chatWindow st1 = chatWindow st
  ∧ ∀ turns net input,
      trim input ≠ [] →
      let before := session P turns st1 in
      let out := submit P net (set_userInput input before) in
      fst out = Throw TypeError
      ∧ m :: rest `prefix_of` conversation before
      ∧ conversation (snd out)
        = conversation before
          ++ [VObj [(lit "role", VStr (lit "user"));
                    (lit "content", VStr (trim input))]]
      ∧ sent (snd out) = sent st
      ∧ chatWindow (snd out)
        = chatWindow before
          ++ [Div (lit "msg user") (flat_map written_char (trim input))].
Proof.
  intros Hg Hraw Hne Hp Hm Hnull st1.
  assert (conversation st1 = m :: rest) as Hc.
  { subst st1. rewrite loadState_spec, Hg. cbn [snd conversation set_conversation].
    unfold restored_conversation. rewrite Hraw. destruct raw as [|c r]; [done|].
    rewrite Hp. simpl.
    rewrite (role_is_system_readable m (is_system_readable m Hm)). simpl.
    by rewrite Hm. }
  assert (sent st1 = sent st ∧ chatWindow st1 = chatWindow st) as [Hs Hw].
  { subst st1. rewrite loadState_spec. by destruct (getItem_fault P). }
  split; [exact Hc|]. split; [exact Hs|]. split; [exact Hw|].
  intros turns net input Hin before out.
  assert (Exists (λ m, nullish m = true) (conversation st1)) as Hnull1.
  { rewrite Hc. by right. }
  destruct (session_unreadable P turns st1 Hnull1) as (Hb & Hpre & Hsent).
  fold before in Hb, Hpre, Hsent. subst out.
  rewrite submit_unreadable by done. cbn [fst snd userInput set_userInput].
  rewrite before_send_conversation, before_send_sent, before_send_chatWindow.
  cbn [conversation sent chatWindow set_userInput].
  rewrite <- Hc, Hsent, Hs, message_div_flat_map. by split_and!.
Qed.

(** A stored system message followed by [null]: the first turn throws,
    and so does the third, after a turn and a blank input. *)
Lemma restored_null_stops_turns_witness :
  let system :=
    VObj [(lit "role", VStr (lit "system")); (lit "content", VStr (lit "Be brief."))] in
  let P := platform_parsing [VArr [system; VNull]] in
  let storage :=
    {[ lit "loreal_chat_conversation" := example_stringify (VArr [system; VNull]) ]} in
  let st1 := snd (loadState P (fresh storage)) in
  let first := submit P answers_X (set_userInput (lit "hello") st1) in
  let later :=
    submit P answers_X
      (set_userInput (lit "anyone?")
         (session P [(lit "hello", answers_X); (lit "  ", answers_X)] st1)) in
  conversation st1 = [system; VNull]
  ∧ fst first = Throw TypeError
  ∧ sent (snd first) = []
  ∧ fst later = Throw TypeError
  ∧ sent (snd later) = []
  ∧ conversation (snd later)
    = [system; VNull;
       VObj [(lit "role", VStr (lit "user")); (lit "content", VStr (lit "hello"))];
       VObj [(lit "role", VStr (lit "user")); (lit "content", VStr (lit "anyone?"))]].
Proof.
  intros system P storage st1 first later.
  destruct (restored_null_stops_turns P (fresh storage)
              (example_stringify (VArr [system; VNull])) system [VNull])
    as (Hc & _ & _ & Hturns); try reflexivity; try discriminate.
  - by left.
  - destruct (Hturns [] answers_X (lit "hello")) as (H1 & _ & _ & H2 & _);
      [discriminate|].
    destruct (Hturns [(lit "hello", answers_X); (lit "  ", answers_X)]
                answers_X (lit "anyone?")) as (H3 & _ & H5 & H4 & _);
      [discriminate|].
    assert (conversation (snd later)
            = [system; VNull;
               VObj [(lit "role", VStr (lit "user"));
                     (lit "content", VStr (lit "hello"))];
               VObj [(lit "role", VStr (lit "user"));
                     (lit "content", VStr (lit "anyone?"))]]) as H6.
    { etrans; [exact H5|]. vm_compute. reflexivity. }
    by split_and!.
Defined.

(** ** A turn, from the page's side *)

Lemma show_latest_userInput t st : userInput (show_latest t st) = userInput st.
Proof. unfold show_latest. by destruct (latestQuestion st). Qed.




Lemma before_send_userInput P text st : userInput (before_send P text st) = [].
Proof. reflexivity. Qed.




(** ** The stored conversation after a turn *)

(** X15.  When localStorage takes the writes, after a turn with an input
    that is not blank on a conversation of readable entries: if a reply
    was read, the stored conversation is the conversation; if the call
    failed, it is the conversation as the handler saved it, with the
    user's message and not trimmed. *)
Theorem stored_conversation_after_turn P net st :
  let text := trim (userInput st) in
  let pushed := conversation st ++ [Message (lit "user") (VStr text)] in
  (∀ m k v, setItem_fault P m k v = None) →
  text ≠ [] →
  Forall readable (conversation st) →
  let st' := snd (submit P net st) in
  localStorage st' !! STORAGE_conversation
  = Some (JSON_stringify P
            (VArr match call P net (trimmed pushed) with
                  | Normal _ => conversation st'
                  | Throw _ => pushed
                  end)).
Proof.
  intros text pushed Hw Ht Hr st'. subst st'.
  rewrite (submit_text P net st Ht). fold text.
  assert (Forall readable (conversation (before_send P text st))) as Hr'.
  { rewrite before_send_conversation. apply Forall_app. split; [done|].
    constructor; [apply readable_Message | done]. }
  rewrite (sendMessageToOpenAI_spec P net text _ Hr'). cbn [snd].
  rewrite after_send_localStorage, after_send_conversation,
    before_send_conversation.
  fold pushed. destruct (call P net (trimmed pushed)).
  - by apply written_conversation.
  - by apply before_send_stored_conversation.
Qed.

Lemma stored_conversation_after_turn_witness :
  let st := set_userInput (lit "hello") (fresh ∅) in
  let st' := snd (submit example_platform (λ _, Throw TypeError) st) in
  localStorage st' !! STORAGE_conversation
  = Some (example_stringify (VArr [system_message; user_message "hello"])).
Proof.
  intros st st'. subst st'.
  rewrite (stored_conversation_after_turn example_platform (λ _, Throw TypeError) st);
    [reflexivity | done | discriminate | repeat constructor].
Defined.

(** ** The bound over a session *)

Lemma bounded_by_well_formed n conv : bounded_by n conv → well_formed conv.
Proof.
  intros (sys & others & -> & Hs & Ho & _). split; [|by left].
  constructor; [by apply is_system_readable|].
  eapply Forall_impl; [exact Ho|]. by intros m [? _].
Qed.

Lemma bounded_by_trimmed_snoc n conv r c :
  bounded_by n conv →
  jsstring_eqb r (lit "system") = false →
  bounded_by 40 (trimmed (conv ++ [Message r c])).
Proof.
  intros (sys & others & -> & Hs & Ho & _) Hr.
  assert (Forall (λ m, readable m ∧ is_system m = false) (others ++ [Message r c]))
    as Ho'.
  { apply Forall_app. split; [done|]. constructor; [|done].
    split; [apply readable_Message | by rewrite is_system_Message]. }
  exists sys, (slice_last 40 (others ++ [Message r c])). split_and!.
  - rewrite trimmed_unfold. unfold first_system, non_system. cbn [app List.find].
    rewrite Hs. cbn [default]. rewrite filter_cons_False by congruence.
    fold (non_system (others ++ [Message r c])).
    rewrite non_system_id; [done|].
    eapply Forall_impl; [exact Ho'|]. by intros m [_ ?].
  - exact Hs.
  - apply Forall_forall. intros m Hm. rewrite Forall_forall in Ho'. apply Ho'.
    eapply elem_of_suffix; [exact Hm | apply slice_last_suffix].
  - rewrite slice_last_length. lia.
Qed.

Lemma bounded_by_snoc n conv r c :
  bounded_by n conv →
  jsstring_eqb r (lit "system") = false →
  bounded_by (S n) (conv ++ [Message r c]).
Proof.
  intros (sys & others & -> & Hs & Ho & Hl) Hr.
  exists sys, (others ++ [Message r c]). split_and!; [done|done| |].
  - apply Forall_app. split; [done|]. constructor; [|done].
    split; [apply readable_Message | by rewrite is_system_Message].
  - rewrite length_app. simpl. lia.
Qed.

Lemma bounded_by_le n n' conv : n ≤ n' → bounded_by n conv → bounded_by n' conv.
Proof.
  intros Hn (sys & others & ? & ? & ? & ?). exists sys, others.
  split_and!; [done..|lia].
Qed.

Lemma submit_bounded P net st :
  bounded_by 41 (conversation st) →
  bounded_by 41 (conversation (snd (submit P net st))).
Proof.
  intros Hb. destruct (trim (userInput st)) as [|c t] eqn:E.
  - by rewrite submit_blank.
  - rewrite submit_text by (by rewrite E).
    assert (Forall readable (conversation (before_send P (trim (userInput st)) st)))
      as Hr.
    { rewrite before_send_conversation.
      by apply well_formed_snoc, (bounded_by_well_formed 41). }
    rewrite (sendMessageToOpenAI_spec P net _ _ Hr). cbn [snd].
    rewrite after_send_conversation, before_send_conversation.
    pose proof (bounded_by_trimmed_snoc 41 (conversation st) (lit "user")
                  (VStr (trim (userInput st))) Hb eq_refl) as Ht.
    destruct (call P net _).
    + by apply (bounded_by_snoc 40).
    + rewrite app_nil_r. apply (bounded_by_le 40); [lia | done].
Qed.

(** *** Calls in flight

    The pieces of a call, as equations; run one after the other they are
    the call, and a session is the run of its events one by one. *)

Lemma send_failed_spec P e st : send_failed P e st = (Normal tt, failed_with P e st).
Proof. reflexivity. Qed.

Lemma send_resume_spec P res st :
  send_resume P res st
  = (Normal tt,
     match reply_of P res with
     | Normal a => replied P a st
     | Throw e => failed_with P e st
     end).
Proof.
  unfold send_resume, try_finally, try_catch, setLoading, push, appendMessage.
  js_unfold. simpl.
  destruct (reply_of P res) as [a|e]; simpl; [|reflexivity].
  rewrite saveState_spec. unfold replied. simpl. destruct a; reflexivity.
Qed.

Lemma send_start_spec P st :
  send_start P st
  = match trimConversation st with
    | (Normal _, st1) =>
        match request_for P (conversation st1) with
        | Normal req =>
            (Normal (Some req), set_sent (sent st1 ++ [req]) (loading true st1))
        | Throw e => (Normal None, failed_with P e (loading true st1))
        end
    | (Throw e, st1) => (Throw e, st1)
    end.
Proof.
  unfold send_start. unfold bind at 1.
  destruct (trimConversation st) as [[[]|e] st1]; [|reflexivity].
  unfold setLoading. js_unfold. simpl. rewrite loading_conversation.
  destruct (request_for P (conversation st1)) as [req|e]; simpl.
  - by rewrite loading_sent.
  - reflexivity.
Qed.

Lemma sendMessageToOpenAI_split P net messageText st :
  sendMessageToOpenAI P net messageText st
  = match send_start P st with
    | (Normal (Some req), st1) =>
        match net req with
        | Normal res => send_resume P res st1
        | Throw e => send_failed P e st1
        end
    | (Normal None, st1) => (Normal tt, st1)
    | (Throw e, st1) => (Throw e, st1)
    end.
Proof.
  rewrite sendMessageToOpenAI_unfold, send_start_spec.
  destruct (trimConversation st) as [[[]|e] st1]; [|reflexivity].
  unfold finish.
  destruct (request_for P (conversation st1)) as [req|e]; [|reflexivity].
  destruct (net req) as [res|e]; simpl; [|reflexivity].
  by rewrite send_resume_spec.
Qed.

Lemma submit_start_blank P st :
  trim (userInput st) = [] → submit_start P st = (Normal None, st).
Proof. intros H. unfold submit_start. js_unfold. simpl. by rewrite H. Qed.

Lemma submit_start_text P st :
  trim (userInput st) ≠ [] →
  submit_start P st = send_start P (before_send P (trim (userInput st)) st).
Proof.
  intros H. unfold submit_start. unfold bind at 1, gets at 1. cbv beta iota.
  destruct (trim (userInput st)) as [|c text]; [done|].
  change (is_empty (c :: text)) with false. cbv iota.
  generalize (c :: text). clear. intros text.
  unfold before_send, push, detectAndSaveUserName, appendMessage.
  destruct (match_name text) as [name|]; js_unfold; simpl;
    rewrite !saveState_spec; reflexivity.
Qed.

Lemma submit_split P net st :
  submit P net st
  = match submit_start P st with
    | (Normal (Some req), st1) =>
        match net req with
        | Normal res => send_resume P res st1
        | Throw e => send_failed P e st1
        end
    | (Normal None, st1) => (Normal tt, st1)
    | (Throw e, st1) => (Throw e, st1)
    end.
Proof.
  destruct (trim (userInput st)) as [|c t] eqn:E.
  - by rewrite submit_blank, submit_start_blank.
  - rewrite submit_text, submit_start_text by (by rewrite E).
    apply sendMessageToOpenAI_split.
Qed.

Lemma handle_submit P input st calls :
  handle P (Submit input) (st, calls)
  = match submit_start P (set_userInput input st) with
    | (Normal (Some req), st1) => (st1, calls ++ [fetch_of req])
    | (_, st1) => (st1, calls)
    end.
Proof. reflexivity. Qed.

Lemma handle_fetch P net st req calls :
  handle P (Settle 0 net) (st, fetch_of req :: calls)
  = match net req with
    | Normal res => (st, body_of res :: calls)
    | Throw e => (snd (send_failed P e st), calls)
    end.
Proof. reflexivity. Qed.

Lemma handle_body P net st res calls :
  handle P (Settle 0 net) (st, body_of res :: calls)
  = (snd (send_resume P res st), calls).
Proof. reflexivity. Qed.

Lemma handle_none P i net st : handle P (Settle i net) (st, []) = (st, []).
Proof. reflexivity. Qed.

(** One turn, event by event. *)
Lemma run_turn P input net st :
  run P [Submit input; Settle 0 net; Settle 0 net] (st, [])
  = (snd (submit P net (set_userInput input st)), []).
Proof.
  unfold run. cbn [fold_left]. rewrite handle_submit, submit_split.
  destruct (submit_start P (set_userInput input st)) as [[[req|]|e] st1];
    cbn [app]; rewrite ?handle_none; try reflexivity.
  rewrite handle_fetch.
  destruct (net req) as [res|e]; [by rewrite handle_body | by rewrite handle_none].
Qed.

Lemma run_app P a b page : run P (a ++ b) page = run P b (run P a page).
Proof. apply fold_left_app. Qed.

Lemma session_run P turns st :
  run P (one_by_one turns) (st, []) = (session P turns st, []).
Proof.
  revert st. induction turns as [|[input net] turns IH]; intros st; [done|].
  change (one_by_one ((input, net) :: turns))
    with ([Submit input; Settle 0 net; Settle 0 net] ++ one_by_one turns).
  rewrite run_app, run_turn. apply IH.
Qed.

Lemma failed_with_conversation P e st :
  conversation (failed_with P e st) = conversation st.
Proof. unfold failed_with. by rewrite loading_conversation. Qed.

Lemma replied_conversation P a st :
  conversation (replied P a st)
  = conversation st ++ [Message (lit "assistant") a].
Proof. unfold replied. by rewrite loading_conversation. Qed.

Lemma peak_length P events page : length page.2 ≤ peak P events page.
Proof. destruct events; simpl; lia. Qed.

Lemma handle_in_bounds P ev page c :
  in_bounds c page →
  length (handle P ev page).2 ≤ c →
  in_bounds c (handle P ev page).
Proof.
  destruct page as [st calls]. intros (n & Hb & Hn). cbn [fst snd] in Hb, Hn.
  destruct ev as [input|i net].
  - rewrite handle_submit.
    destruct (trim input) as [|ch t] eqn:E.
    { rewrite submit_start_blank by done. intros _. by exists n. }
    rewrite submit_start_text by (cbn [userInput set_userInput]; by rewrite E).
    cbn [userInput set_userInput]. rewrite send_start_spec.
    assert (Forall readable
              (conversation (before_send P (trim input) (set_userInput input st))))
      as Hr.
    { rewrite before_send_conversation. cbn [conversation set_userInput].
      by apply well_formed_snoc, (bounded_by_well_formed n). }
    rewrite (trimConversation_spec _ Hr).
    cbn [conversation set_conversation]. rewrite before_send_conversation.
    cbn [conversation set_userInput].
    pose proof (bounded_by_trimmed_snoc n (conversation st) (lit "user")
                  (VStr (trim input)) Hb eq_refl) as Ht.
    destruct (request_for P _) as [req|e]; cbn [fst snd]; intros Hc.
    + exists 40. cbn [fst snd]. split; [|lia].
      cbn [conversation set_sent]. by rewrite loading_conversation.
    + exists 40. cbn [fst snd]. split; [|lia].
      by rewrite failed_with_conversation, loading_conversation.
  - unfold handle. cbn [fst snd].
    destruct (calls !! i) as [[req|res]|] eqn:Hi; [| |intros _; by exists n].
    + destruct (net req) as [res|e]; cbn [fst snd]; intros _.
      * exists n. cbn [fst snd]. split; [done|]. by rewrite length_insert.
      * exists n. cbn [fst snd]. rewrite send_failed_spec. cbn [snd].
        rewrite failed_with_conversation. split; [done|].
        rewrite length_delete by done. lia.
    + cbn [fst snd]. intros _. rewrite send_resume_spec. cbn [snd].
      assert (length (delete i calls) = length calls - 1 ∧ 1 ≤ length calls)
        as [Hd Hl].
      { rewrite length_delete by done. split; [done|].
        apply lookup_lt_Some in Hi. lia. }
      destruct (reply_of P res) as [a|e].
      * exists (S n). cbn [fst snd]. rewrite replied_conversation.
        split; [by apply bounded_by_snoc | lia].
      * exists n. cbn [fst snd]. rewrite failed_with_conversation.
        split; [done | lia].
Qed.

Lemma run_in_bounds P events page c :
  in_bounds c page → peak P events page ≤ c → in_bounds c (run P events page).
Proof.
  revert page. induction events as [|ev events IH]; intros page Hb Hp; [done|].
  cbn [peak] in Hp. change (run P (ev :: events) page)
    with (run P events (handle P ev page)).
  pose proof (peak_length P events (handle P ev page)).
  apply IH; [|lia]. apply handle_in_bounds; [done | lia].
Qed.

(** X16.  When every call is settled before the next submit, the
    conversation stays bounded over a whole session: from one system
    message followed by at most forty-one other readable entries, every
    session, whatever is typed and whatever the network does, ends with
    one system message followed by at most forty-one others, so with at
    most forty-two entries.  Such a session is the run of its events one
    by one.  The script does not hold back a submit while a call waits:
    in a run of submits and settled calls in any order, with at most [c]
    calls in flight at any time, one system message is followed by at
    most [40 + c] others, since each call trims when it starts and
    appends its reply when it ends. *)
Theorem session_stays_bounded P turns events st c :
  bounded_by 41 (conversation st) →
  (bounded_by 41 (conversation (session P turns st))
   ∧ length (conversation (session P turns st)) ≤ 42)
  ∧ run P (one_by_one turns) (st, []) = (session P turns st, [])
  ∧ (1 ≤ c →
     peak P events (st, []) ≤ c →
     bounded_by (40 + c) (conversation (run P events (st, [])).1)
     ∧ length (conversation (run P events (st, [])).1) ≤ 41 + c).
Proof.
  intros Hb. split_and!.
  - revert st Hb. induction turns as [|[input net] turns IH]; intros st Hb; [done|].
    simpl. apply IH. by apply submit_bounded.
  - assert (bounded_by 41 (conversation (session P turns st))) as H.
    { revert st Hb. induction turns as [|[input net] turns IH]; intros st Hb; [done|].
      simpl. apply IH. by apply submit_bounded. }
    destruct H as (sys & others & -> & _ & _ & Hl). simpl. lia.
  - apply session_run.
  - intros Hc Hp.
    destruct (run_in_bounds P events (st, []) c) as (n & Hn & Hle); [|done|].
    { exists 41. split; [done | simpl; lia]. }
    assert (bounded_by (40 + c) (conversation (run P events (st, [])).1)) as H.
    { apply (bounded_by_le n); [lia | done]. }
    split; [exact H|]. destruct H as (sys & others & -> & _ & _ & Hl). simpl. lia.
Qed.

(** Twenty turns one by one leave forty-one entries; two further
    submits before any answer, then the answers, leave forty-three. *)
Lemma session_stays_bounded_witness :
  let hello := replicate 20 (lit "hello", answers_X) in
  let overlapping :=
    one_by_one hello
    ++ [Submit (lit "first"); Submit (lit "second");
        Settle 0 answers_X; Settle 0 answers_X;
        Settle 0 answers_X; Settle 0 answers_X] in
  length (conversation (session example_platform hello (fresh ∅))) = 41
  ∧ length (conversation (run example_platform overlapping (fresh ∅, [])).1) = 43
  ∧ length (conversation (run example_platform overlapping (fresh ∅, [])).1) ≤ 41 + 2.
Proof.
  intros hello overlapping.
  split; [vm_compute; reflexivity|]. split; [vm_compute; reflexivity|].
  apply (session_stays_bounded example_platform hello overlapping (fresh ∅) 2).
  - exists system_message, []. split_and!; [done | done | constructor | simpl; lia].
  - lia.
  - vm_compute. lia.
Defined.

(** ** The requests of a turn *)

Lemma submit_sent_cases P net st :
  sent (snd (submit P net st)) = sent st
  ∨ ∃ conv req,
      request_for P conv = Normal req
      ∧ sent (snd (submit P net st)) = sent st ++ [req].
Proof.
  destruct (trim (userInput st)) as [|c t] eqn:E.
  - left. by rewrite submit_blank.
  - rewrite submit_text by (by rewrite E).
    rewrite sendMessageToOpenAI_unfold.
    destruct (trimConversation_frame (before_send P (trim (userInput st)) st))
      as (o & conv & ->).
    destruct o as [[]|e]; cbn [snd]; [|left; apply before_send_sent].
    rewrite finish_sent. cbn [sent conversation set_conversation].
    rewrite before_send_sent.
    destruct (request_for P conv) as [req|e] eqn:Hreq.
    + right. by exists conv, req.
    + left. by rewrite app_nil_r.
Qed.

Lemma request_for_built P conv :
  workerUrl P ≠ None ∨ apiKey P ≠ None → ∃ req, request_for P conv = Normal req.
Proof.
  unfold request_for. destruct (workerUrl P); [by eauto|].
  destruct (apiKey P); [by eauto|]. by intros [?|?].
Qed.

(** X17.  A turn hands at most one request to [fetch], from any state and
    whatever the network does: there is no second attempt.  It hands none
    when the input is blank, and exactly one when the input is not blank,
    the entries of the conversation are readable and secrets.js declares
    a worker or a key. *)
Theorem turn_sends_at_most_one_request P net st :
  ∃ reqs,
    sent (snd (submit P net st)) = sent st ++ reqs
    ∧ length reqs ≤ 1
    ∧ (Forall (λ c, is_space c = true) (userInput st) → reqs = [])
    ∧ (trim (userInput st) ≠ [] →
       Forall readable (conversation st) →
       workerUrl P ≠ None ∨ apiKey P ≠ None →
       length reqs = 1).
Proof.
  destruct (trim (userInput st)) as [|c t] eqn:E.
  - exists []. rewrite submit_blank, app_nil_r by done.
    split_and!; [done | simpl; lia | done | by intros []].
  - assert (∀ s : jsstring, Forall (λ c, is_space c = true) s → trim s = [])
      as Hblank by apply trim_blank.
    destruct (submit_sent_cases P net st) as [H|(conv & req & Hreq & H)].
    + exists []. rewrite app_nil_r. split_and!; [done | simpl; lia | done |].
      intros _ Hr Hs. exfalso.
      rewrite submit_text in H by (by rewrite E).
      assert (Forall readable (conversation (before_send P (trim (userInput st)) st)))
        as Hr'.
      { rewrite before_send_conversation. apply Forall_app. split; [done|].
        constructor; [apply readable_Message | done]. }
      rewrite (sendMessageToOpenAI_spec P net _ _ Hr') in H. cbn [snd] in H.
      rewrite after_send_sent, before_send_sent in H.
      destruct (request_for_built P
                  (trimmed (conversation (before_send P (trim (userInput st)) st)))
                  Hs) as [req Hreq].
      rewrite Hreq in H.
      apply (f_equal length) in H. rewrite length_app in H. simpl in H. lia.
    + exists [req]. split_and!; [done | simpl; lia | | done].
      intros Hb. apply Hblank in Hb. congruence.
Qed.

Lemma request_for_worker P conv req u :
  workerUrl P = Some u →
  request_for P conv = Normal req →
  url req = u ∧ headers req = [content_type].
Proof. unfold request_for. intros ->. by intros [= <-]. Qed.

(** X18.  With a worker declared in secrets.js, every request of a
    session goes to the worker and carries the content type as its only
    header: the provider is never called and no [Authorization] header,
    so no key, is ever sent. *)
Theorem worker_gets_every_request P turns st u :
  workerUrl P = Some u →
  only_to u (sent st) →
  only_to u (sent (session P turns st)).
Proof.
  intros Hu. revert st. unfold only_to.
  induction turns as [|[input net] turns IH]; intros st Hs; [done|].
  simpl. apply IH.
  destruct (submit_sent_cases P net (set_userInput input st))
    as [->|(conv & req & Hreq & ->)]; [done|].
  apply Forall_app. split; [done|]. constructor; [|done].
  by apply (request_for_worker P conv).
Qed.

Lemma worker_gets_every_request_witness :
  only_to (lit "https://worker.example/chat")
    (sent (session example_platform
             [(lit "hello", answers_X); (lit "more", λ _, Throw TypeError)]
             (fresh ∅))).
Proof.
  apply (worker_gets_every_request example_platform); [reflexivity | constructor].
Defined.

(** X19.  When secrets.js declares neither a worker nor a key, no request
    is ever sent: reading the key throws before [fetch] is called. *)
Theorem no_endpoint_no_request P turns st :
  workerUrl P = None →
  apiKey P = None →
  sent (session P turns st) = sent st.
Proof.
  intros Hu Hk. revert st.
  induction turns as [|[input net] turns IH]; intros st; [done|].
  simpl. rewrite IH.
  destruct (submit_sent_cases P net (set_userInput input st))
    as [->|(conv & req & Hreq & _)]; [done|].
  unfold request_for in Hreq. by rewrite Hu, Hk in Hreq.
Qed.

Lemma no_endpoint_no_request_witness :
  sent (session platform_without_secrets
          [(lit "hello", answers_X); (lit "again", answers_X)] (fresh ∅))
  = [].
Proof.
  apply (no_endpoint_no_request platform_without_secrets); reflexivity.
Defined.

(** ** Drawing *)

Lemma drawn_cons_system m conv : is_system m = true → drawn (m :: conv) = drawn conv.
Proof.
  intros H. unfold drawn, non_system. by rewrite filter_cons_False by congruence.
Qed.

Lemma drawn_cons_other m conv d :
  is_system m = false → div_of m = Some d → drawn (m :: conv) = d :: drawn conv.
Proof.
  intros H Hd. unfold drawn, non_system. rewrite filter_cons_True by done.
  simpl. by rewrite Hd.
Qed.

Lemma drawn_app conv1 conv2 : drawn (conv1 ++ conv2) = drawn conv1 ++ drawn conv2.
Proof. unfold drawn. by rewrite non_system_app, omap_app. Qed.

(** Drawing one entry that can be drawn. *)
Lemma render_entry_drawable P m st :
  drawable m →
  render_entry P m st
  = (Normal tt, set_chatWindow (chatWindow st ++ drawn [m]) st).
Proof.
  intros [Hr Hd]. unfold render_entry, get. rewrite Hr. js_unfold. cbn [fst snd].
  fold (is_system m). destruct (is_system m) eqn:Hs.
  - rewrite (drawn_cons_system m [] Hs). unfold drawn. simpl.
    rewrite app_nil_r. by destruct st.
  - destruct Hd as [?|[d Hd]]; [done|].
    rewrite (drawn_cons_other m [] d Hs Hd). unfold drawn. simpl.
    unfold div_of in Hd.
    destruct (get_prop m (lit "role")) as [| | | |r| |] eqn:Er; try done.
    destruct (get_prop m (lit "content")) as [| | | |c| |] eqn:Ec; try done.
    injection Hd as <-. simpl.
    destruct (jsstring_eqb r (lit "assistant")); reflexivity.
Qed.

Lemma Array_forEach_app f a b st :
  Array_forEach f (a ++ b) st
  = match Array_forEach f a st with
    | (Normal _, st') => Array_forEach f b st'
    | (Throw e, st') => (Throw e, st')
    end.
Proof.
  revert st. induction a as [|m a IH]; intros st; [reflexivity|].
  simpl. unfold bind. destruct (f m st) as [[[]|e] st1]; [apply IH | reflexivity].
Qed.

Lemma forEach_render P conv st :
  Forall drawable conv →
  Array_forEach (render_entry P) conv st
  = (Normal tt, set_chatWindow (chatWindow st ++ drawn conv) st).
Proof.
  intros H. revert st. induction H as [|m conv Hm _ IH]; intros st.
  - unfold drawn. simpl. rewrite app_nil_r. by destruct st.
  - change (m :: conv) with ([m] ++ conv) at 1.
    rewrite Array_forEach_app. simpl. unfold bind at 1.
    rewrite (render_entry_drawable P m st Hm). unfold ret. rewrite IH.
    change (m :: conv) with ([m] ++ conv). rewrite drawn_app.
    cbn [chatWindow set_chatWindow]. by rewrite app_assoc.
Qed.

Lemma drawn_length conv :
  Forall drawable conv → length (drawn conv) = length (non_system conv).
Proof.
  induction 1 as [|m conv [_ Hm] _ IH]; [reflexivity|].
  destruct (is_system m) eqn:Hs.
  - rewrite (drawn_cons_system m conv Hs). unfold non_system.
    by rewrite filter_cons_False by congruence.
  - destruct Hm as [?|[d Hd]]; [done|].
    rewrite (drawn_cons_other m conv d Hs Hd). unfold non_system.
    rewrite filter_cons_True by done. simpl. by f_equal.
Qed.

Lemma renderConversation_drawable P st :
  Forall drawable (conversation st) →
  renderConversation P st
  = (Normal tt, set_chatWindow (drawn (conversation st)) st).
Proof.
  intros H. unfold renderConversation. js_unfold.
  cbn [fst snd conversation set_chatWindow].
  by rewrite (forEach_render P _ _ H).
Qed.

(** X20.  On a conversation whose entries can all be drawn,
    [renderConversation] returns and leaves in the chat window one [div]
    for each entry that is not a system message, in their order, of class
    [msg ai] for an assistant message and [msg] with the role otherwise.
    What the window held before is gone and nothing else changes: the
    window is a function of the conversation alone. *)
Theorem renderConversation_draws_conversation P st :
  Forall drawable (conversation st) →
  renderConversation P st
  = (Normal tt, set_chatWindow (drawn (conversation st)) st)
  ∧ length (drawn (conversation st)) = length (non_system (conversation st)).
Proof.
  intros H. split; [by apply renderConversation_drawable | by apply drawn_length].
Qed.

Lemma renderConversation_draws_conversation_witness :
  let st := set_conversation small_talk (fresh ∅) in
  renderConversation example_platform st
  = (Normal tt,
     set_chatWindow
       [message_div (lit "user") (lit "hi");
        message_div (lit "ai") (lit "Hello!")] st).
Proof.
  intros st.
  destruct (renderConversation_draws_conversation example_platform st) as [-> _];
    [|reflexivity].
  repeat constructor; by eauto.
Defined.

(** X21.  [renderConversation] stops at the first entry whose content is
    not a string: the entries before it are drawn, a TypeError is thrown,
    and the entries after it are not drawn. *)
Theorem renderConversation_stops_at_bad_content P st good bad rest r :
  conversation st = good ++ bad :: rest →
  Forall drawable good →
  get_prop bad (lit "role") = VStr r →
  jsstring_eqb r (lit "system") = false →
  (∀ c, get_prop bad (lit "content") ≠ VStr c) →
  renderConversation P st
  = (Throw TypeError, set_chatWindow (drawn good) st).
Proof.
  intros Hc Hg Hr Hs Hbad.
  assert (nullish bad = false) as Hn by (by destruct bad).
  unfold renderConversation. js_unfold. cbn [fst snd conversation set_chatWindow].
  rewrite Hc, Array_forEach_app, (forEach_render P _ _ Hg).
  cbn [Array_forEach chatWindow app]. unfold bind at 1.
  unfold render_entry, get. rewrite Hn, Hr. js_unfold. cbn [is_string]. rewrite Hs.
  cbn [fst snd].
  assert (∀ cls st0, appendMessage cls (get_prop bad (lit "content")) st0
                     = (Throw TypeError, st0)) as Happ.
  { intros cls st0. unfold appendMessage.
    destruct (get_prop bad (lit "content")) as [| | | |c| |]; try reflexivity.
    by destruct (Hbad c). }
  destruct (jsstring_eqb r (lit "assistant")); simpl; by rewrite Happ.
Qed.

Lemma renderConversation_stops_at_bad_content_witness :
  let st :=
    set_conversation
      [system_message; user_message "hello";
       Message (lit "assistant") (VNum 5); user_message "more"]
      (fresh ∅) in
  renderConversation example_platform st
  = (Throw TypeError, set_chatWindow [message_div (lit "user") (lit "hello")] st).
Proof.
  intros st.
  rewrite (renderConversation_stops_at_bad_content example_platform st
             [system_message; user_message "hello"]
             (Message (lit "assistant") (VNum 5)) [user_message "more"]
             (lit "assistant")); try done.
  repeat constructor; by eauto.
Defined.

(** ** Loading the page *)

Lemma drawable_readable conv : Forall drawable conv → Forall readable conv.
Proof. intros H. eapply Forall_impl; [exact H|]. by intros m [? _]. Qed.

Lemma Array_find_user_readable conv :
  Forall readable conv →
  Array_find role_is_user conv = Normal (default VUndefined (List.find is_user conv)).
Proof.
  induction 1 as [|m conv Hm _ IH]; [reflexivity|].
  simpl. unfold role_is_user at 1, get. rewrite Hm. simpl. fold (is_user m).
  destruct (is_user m); [reflexivity | exact IH].
Qed.

(** A user message that can be drawn has a string as its content. *)
Lemma drawable_user_content m :
  drawable m → is_user m = true →
  truthy m = true ∧ nullish m = false
  ∧ get_prop m (lit "content") = VStr (content_text m).
Proof.
  intros [Hr Hd] Hu. unfold is_user in Hu.
  assert (is_system m = false) as Hs.
  { unfold is_system. destruct (get_prop m (lit "role")) as [| | | |r| |]; try done.
    simpl in *. apply jsstring_eqb_eq in Hu as ->. reflexivity. }
  destruct Hd as [?|[d Hd]]; [congruence|].
  split; [by destruct m|]. split; [exact Hr|].
  unfold div_of in Hd. unfold content_text.
  destruct (get_prop m (lit "role")); try done.
  by destruct (get_prop m (lit "content")).
Qed.

(** X22.  When [loadState] leaves the conversation with the system
    message alone (nothing stored, or nothing that could be restored),
    the page ends up with the welcome message as the only content of the
    chat window; the latest question is not touched. *)
Theorem initialize_greets P st :
  conversation (snd (loadState P st)) = [system_message] →
  ∃ st',
    initialize P st = (Normal tt, st')
    ∧ chatWindow st' = [message_div (lit "ai") welcome]
    ∧ conversation st' = [system_message]
    ∧ latestQuestion st' = latestQuestion st.
Proof.
  destruct (loadState_frame P st) as (st1 & Hl & _ & _ & Hq & _).
  rewrite Hl. cbn [snd]. intros Hc.
  assert (Forall drawable (conversation st1)) as Hd.
  { rewrite Hc. constructor; [|constructor]. split; [done | by left]. }
  unfold initialize. unfold bind at 1. rewrite Hl. unfold bind at 1.
  rewrite (renderConversation_drawable P st1 Hd).
  js_unfold. cbn [fst snd conversation set_chatWindow]. rewrite Hc.
  cbn [length Nat.leb]. unfold appendMessage, modify, append_div.
  eexists; split; [reflexivity|]. by split_and!.
Qed.

Lemma initialize_greets_witness :
  ∃ st',
    initialize example_platform (fresh ∅) = (Normal tt, st')
    ∧ chatWindow st' = [message_div (lit "ai") welcome]
    ∧ conversation st' = [system_message]
    ∧ latestQuestion st' = Some [].
Proof. apply (initialize_greets example_platform (fresh ∅)). reflexivity. Defined.

(** X23.  When [loadState] leaves a conversation of more than one entry,
    all of which can be drawn, the page ends up with that conversation
    drawn in the chat window, without a welcome message, and with the
    content of the last user message as the latest question, if the page
    has the element and the conversation a user message. *)
Theorem initialize_shows_restored P st :
  let conv := conversation (snd (loadState P st)) in
  Forall drawable conv →
  1 < length conv →
  ∃ st',
    initialize P st = (Normal tt, st')
    ∧ chatWindow st' = drawn conv
    ∧ conversation st' = conv
    ∧ latestQuestion st' = latest_shown conv (latestQuestion st).
Proof.
  destruct (loadState_frame P st) as (st1 & Hl & _ & _ & Hq & _).
  intros conv. subst conv. rewrite Hl. cbn [snd]. intros Hd Hlen.
  unfold initialize. unfold bind at 1. rewrite Hl. unfold bind at 1.
  rewrite (renderConversation_drawable P st1 Hd).
  js_unfold. cbn [fst snd conversation set_chatWindow latestQuestion].
  replace (length (conversation st1) <=? 1) with false
    by (symmetry; apply Nat.leb_gt; lia).
  assert (Forall drawable (rev (conversation st1))) as Hd'.
  { apply Forall_forall. intros m Hm. rewrite Forall_forall in Hd. apply Hd.
    by apply list_elem_of_In, in_rev, list_elem_of_In. }
  rewrite (Array_find_user_readable _ (drawable_readable _ Hd')).
  unfold latest_shown. rewrite <- Hq.
  change (latestQuestion (set_chatWindow (drawn (conversation st1)) st1))
    with (latestQuestion st1).
  destruct (latestQuestion st1) as [q|] eqn:Eq;
    [|eexists; split; [reflexivity | by rewrite ?Eq]].
  destruct (List.find is_user (rev (conversation st1))) as [m|] eqn:Hfind;
    cbn [default]; [|eexists; split; [reflexivity | by rewrite ?Eq]].
  apply find_some in Hfind as [Hin Hu].
  rewrite Forall_forall in Hd'.
  destruct (drawable_user_content m (Hd' m (proj2 (list_elem_of_In _ _) Hin)) Hu)
    as (Ht & Hn & Hcontent).
  unfold id. rewrite Ht. unfold get. rewrite Hn, Hcontent.
  cbn [textContent_of nullish ToString ToString_primitive].
  eexists; split; [reflexivity | done].
Qed.

Lemma initialize_shows_restored_witness :
  let P := platform_parsing [VArr small_talk] in
  let storage := {[ STORAGE_conversation := example_stringify (VArr small_talk) ]} in
  ∃ st',
    initialize P (fresh storage) = (Normal tt, st')
    ∧ chatWindow st'
      = [message_div (lit "user") (lit "hi"); message_div (lit "ai") (lit "Hello!")]
    ∧ conversation st' = small_talk
    ∧ latestQuestion st' = Some (lit "hi").
Proof.
  intros P storage.
  assert (conversation (snd (loadState P (fresh storage))) = small_talk) as Hc
    by (vm_compute; reflexivity).
  destruct (initialize_shows_restored P (fresh storage)) as (st' & Hi & Hw & Hconv & Hq).
  - rewrite Hc. repeat constructor; by eauto.
  - rewrite Hc. simpl. lia.
  - exists st'. rewrite Hc in Hw, Hconv, Hq. by split_and!.
Defined.
